(** * The tetrahedral mesh loader of FEM_WASM_THREEJS (src/ts/loader.ts)

    A shallow embedding of [Loader.parseTetFile], of the mesh build of
    [Loader.loadTet] and of [TetFile.recalcNormals] / [TetFile.copyDataToBuffer],
    followed by the properties of the loader that the specification states.

    Conventions of the embedding.
    - A source text is a [string]; its characters are read as code units
      below 256.
    - A Number that holds an index is a [JSInt]: an integer that a binary64
      value can hold, an infinity or NaN.  Every arithmetic step on an index
      rounds the exact result to binary64 ([norm64]).
    - A Number that holds a coordinate belongs to a type [F] with the
      operations of the class [Float64].  The loader is written once for
      every such [F]; nothing is assumed about the operations, so what is
      proved of the generic code holds for IEEE arithmetic as well.  The
      module [Ideal] instantiates [F] with exact real arithmetic.
    - A typed array is a list; reads out of range give [undefined] and writes
      out of range do nothing, as in ECMAScript.
    - A [Map] is the list of its entries in insertion order.
    - A thrown [TypeError] is the [Throw] completion.
    - [loadTet] starts from the fetched text: the request, the promise and
      the limits of memory are outside the embedding. *)

From Stdlib Require Import ZArith Reals Lra Lia Ascii String.
From Stdlib Require Import DecimalString DecimalN DecimalPos DecimalFacts.
From stdpp Require Import base option list sorting.

Local Open Scope string_scope.
Local Open Scope list_scope.
Local Open Scope Z_scope.

(** ** Completions *)

Inductive Completion (A : Type) : Type :=
| Normal (a : A)
| Throw.
Arguments Normal {A} a.
Arguments Throw {A}.

Definition cbind {A B} (c : Completion A) (k : A -> Completion B) : Completion B :=
  match c with
  | Normal a => k a
  | Throw => Throw
  end.

Notation "'let!' x ':=' c 'in' k" := (cbind c (fun x => k))
  (at level 10, x name, c at level 100, k at level 200).

(** ** Numbers that hold indices *)

Inductive JSInt : Type :=
| NaN
| PInf
| NInf
| Int (z : Z).

Global Instance JSInt_eq_dec : EqDecision JSInt.
Proof. solve_decision. Defined.

(** Round-to-nearest, ties-to-even of an exact integer to binary64. *)
Definition norm64 (z : Z) : JSInt :=
  let a := Z.abs z in
  let e := Z.log2 a - 52 in
  if e <=? 0 then Int z
  else
    let q := Z.shiftr a e in
    let r := a - Z.shiftl q e in
    let half := Z.shiftl 1 (e - 1) in
    let q' := if (half <? r) || ((half =? r) && Z.odd q) then q + 1 else q in
    let m := Z.shiftl q' e in
    if 2 ^ 1024 <=? m then (if z <? 0 then NInf else PInf)
    else Int (Z.sgn z * m).

(** [x - c], [x * c] and [x + c] for a literal [c] (1, 2 or 3 in the source). *)
Definition jsub (x : JSInt) (c : Z) : JSInt :=
  match x with
  | Int z => norm64 (z - c)
  | other => other
  end.

Definition jmul (x : JSInt) (c : Z) : JSInt :=
  match x with
  | Int z => norm64 (z * c)
  | other => other
  end.

Definition jadd (x : JSInt) (c : Z) : JSInt :=
  match x with
  | Int z => norm64 (z + c)
  | other => other
  end.

(** A value read from an [Array<number>]: [None] is [undefined]. *)
Definition JSValue : Type := option JSInt.

Definition ToNumber (v : JSValue) : JSInt :=
  match v with
  | Some n => n
  | None => NaN
  end.

(** ToUint32, applied when a [Uint32Array] is built from a list of Numbers. *)
Definition ToUint32 (x : JSInt) : Z :=
  match x with
  | Int z => z mod 2 ^ 32
  | _ => 0
  end.

(** The element a Number designates in a typed array, if any.  A typed
    array has fewer than 2^53 elements, so a larger Number designates none. *)
Definition ta_index (x : JSInt) : option nat :=
  match x with
  | Int z => if (0 <=? z) && (z <? 2 ^ 53) then Some (Z.to_nat z) else None
  | _ => None
  end.

(** ** Strings *)

(** WhiteSpace and LineTerminator code units below 256. *)
Definition is_whitespace (c : ascii) : bool :=
  let n := nat_of_ascii c in
  ((9 <=? n) && (n <=? 13))%nat || (n =? 32)%nat || (n =? 160)%nat.

Fixpoint trimStart (s : string) : string :=
  match s with
  | EmptyString => EmptyString
  | String c s' => if is_whitespace c then trimStart s' else s
  end.

Fixpoint trimEnd (s : string) : string :=
  match s with
  | EmptyString => EmptyString
  | String c s' =>
      match trimEnd s' with
      | EmptyString => if is_whitespace c then EmptyString else String c EmptyString
      | t => String c t
      end
  end.

(** [String.prototype.trim]. *)
Definition trim (s : string) : string := trimEnd (trimStart s).

Definition startsWith (s : string) (c : ascii) : bool :=
  match s with
  | String c' _ => Ascii.eqb c' c
  | EmptyString => false
  end.

(** The character [c] put in front of the first piece. *)
Definition cons_head (c : ascii) (l : list string) : list string :=
  match l with
  | h :: t => String c h :: t
  | [] => [String c EmptyString]
  end.

(** [s.split(sep)] for a separator of one character. *)
Fixpoint split (sep : ascii) (s : string) : list string :=
  match s with
  | EmptyString => [EmptyString]
  | String c s' =>
      if Ascii.eqb c sep then EmptyString :: split sep s'
      else cons_head c (split sep s')
  end.

(** [text.split(/\r?\n/)]: a line ends at a line feed; a carriage return
    right before that line feed belongs to the separator. *)
Fixpoint split_lines (s : string) : list string :=
  match s with
  | EmptyString => [EmptyString]
  | String c s' =>
      if Ascii.eqb c "010" then EmptyString :: split_lines s'
      else if Ascii.eqb c "013" && startsWith s' "010" then split_lines s'
      else cons_head c (split_lines s')
  end.

(** ** parseInt *)

Definition digit_of (radix : Z) (c : ascii) : option Z :=
  let n := Z.of_nat (nat_of_ascii c) in
  let d :=
    if (48 <=? n) && (n <=? 57) then n - 48
    else if (97 <=? n) && (n <=? 122) then n - 87
    else if (65 <=? n) && (n <=? 90) then n - 55
    else 36 in
  if d <? radix then Some d else None.

(** The value of the longest prefix of digits; [acc] is the value read so
    far, [None] while no digit has been read. *)
Fixpoint parse_digits (radix : Z) (s : string) (acc : option Z) : option Z :=
  match s with
  | EmptyString => acc
  | String c s' =>
      match digit_of radix c with
      | Some d => parse_digits radix s' (Some (default 0 acc * radix + d))
      | None => acc
      end
  end.

Definition strip_sign (s : string) : Z * string :=
  match s with
  | String c s' =>
      if Ascii.eqb c "-" then (-1, s')
      else if Ascii.eqb c "+" then (1, s')
      else (1, s)
  | EmptyString => (1, s)
  end.

Definition strip_radix (s : string) : Z * string :=
  match s with
  | String c0 (String c1 s') =>
      if Ascii.eqb c0 "0" && (Ascii.eqb c1 "x" || Ascii.eqb c1 "X") then (16, s')
      else (10, s)
  | _ => (10, s)
  end.

(** [parseInt(s)] with no radix argument. *)
Definition parseInt (s : string) : JSInt :=
  let '(sign, s1) := strip_sign (trimStart s) in
  let '(radix, s2) := strip_radix s1 in
  match parse_digits radix s2 None with
  | Some n => norm64 (sign * n)
  | None => NaN
  end.

(** An absent argument is converted with ToString first. *)
Definition ToString (v : option string) : string :=
  match v with
  | Some s => s
  | None => "undefined"
  end.

(** ** Numbers that hold coordinates *)

(** The operations the loader applies to coordinates.  [fround] is the
    conversion a [Float32Array] applies to every value stored in it;
    [f_nan] is also ToNumber of [undefined]. *)
Class Float64 (F : Type) : Type := {
  f_zero : F;
  f_half : F;
  f_nan : F;
  f_add : F -> F -> F;
  f_sub : F -> F -> F;
  f_mul : F -> F -> F;
  f_div : F -> F -> F;
  Math_sqrt : F -> F;
  Math_hypot : F -> F -> F -> F;
  fround : F -> F;
  parseFloat : string -> F
}.

Declare Scope float_scope.
Delimit Scope float_scope with fl.
Infix "+" := f_add : float_scope.
Infix "-" := f_sub : float_scope.
Infix "*" := f_mul : float_scope.
Infix "/" := f_div : float_scope.

(** ** Typed arrays and Maps *)

Section Containers.
Context {F : Type} `{Float64 F}.

(** ToNumber of what a typed array read returns. *)
Definition num (v : option F) : F := default f_nan v.

(** [buf[i]] for a Number [i]. *)
Definition ta_get (buf : list F) (i : JSInt) : option F :=
  match ta_index i with
  | Some n => buf !! n
  | None => None
  end.

(** [buf[i] = v] on a [Float32Array], for a loop counter [i]. *)
Definition ta_store (buf : list F) (i : nat) (v : F) : list F :=
  <[i := fround v]> buf.

(** [buf[i] = v] on a [Float32Array], for a Number [i]. *)
Definition ta_set (buf : list F) (i : JSInt) (v : F) : list F :=
  match ta_index i with
  | Some n => ta_store buf n v
  | None => buf
  end.
End Containers.

(** [v * stride + k] for an index [v] read from a corner. *)
Definition flat_index (v : JSValue) (stride k : Z) : JSInt :=
  jadd (jmul (ToNumber v) stride) k.

(** A [Map<number, Array<number>>] in insertion order.  Keys are compared
    with SameValueZero, which on [JSValue] is equality. *)
Definition JSMap : Type := list (JSValue * list nat).

Fixpoint Map_get (m : JSMap) (k : JSValue) : option (list nat) :=
  match m with
  | [] => None
  | (k', v) :: m' => if decide (k' = k) then Some v else Map_get m' k
  end.

Fixpoint Map_set (m : JSMap) (k : JSValue) (v : list nat) : JSMap :=
  match m with
  | [] => [(k, v)]
  | (k', v') :: m' =>
      if decide (k' = k) then (k', v) :: m' else (k', v') :: Map_set m' k v
  end.

(** [connections.includes(faceIndex)]. *)
Definition includes (connections : list nat) (faceIndex : nat) : bool :=
  existsb (Nat.eqb faceIndex) connections.

(** ** The parsed file and the mesh *)

Abbreviation Corner := (list JSInt).
Abbreviation Face := (list Corner).

Module Parsed.
Record ParsedTetFile (F : Type) : Type := {
  vertices : list F;
  texCoords : list F;
  faces : list Face;
  tetsIndices : list JSInt
}.
Arguments vertices {F} _.
Arguments texCoords {F} _.
Arguments faces {F} _.
Arguments tetsIndices {F} _.
End Parsed.
Abbreviation ParsedTetFile := Parsed.ParsedTetFile.

(** The render geometry: three attributes over the per-corner buffers of the
    mesh (shared by reference), each with its [needsUpdate] mark. *)
Record BufferGeometry : Type := {
  position_needsUpdate : bool;
  uv_needsUpdate : bool;
  normal_needsUpdate : bool
}.

Record TetFile (F : Type) : Type := {
  vertices : list F;
  tetsIndices : list Z;
  normals : list F;
  texCoords : list F;
  faceNormals : list F;
  faceAreas : list F;
  faces : list Face;
  connectedFaces : JSMap;
  verticesPositions : list F;
  verticesTexCoords : list F;
  verticesNormals : list F;
  geometry : option BufferGeometry;
  triangleCount : nat
}.
Arguments vertices {F} _.
Arguments tetsIndices {F} _.
Arguments normals {F} _.
Arguments texCoords {F} _.
Arguments faceNormals {F} _.
Arguments faceAreas {F} _.
Arguments faces {F} _.
Arguments connectedFaces {F} _.
Arguments verticesPositions {F} _.
Arguments verticesTexCoords {F} _.
Arguments verticesNormals {F} _.
Arguments geometry {F} _.
Arguments triangleCount {F} _.

(** ** Loader.parseTetFile *)

Section Parser.
Context {F : Type} `{Float64 F}.

(** The inner loop of the [f] case: the indices of one corner token. *)
Definition parseCorner (token : string) : Corner :=
  map (fun indexStr => jsub (parseInt indexStr) 1) (split "/" token).

(** The outer loop of the [f] case, from [i] for [n] more rounds;
    [values[1 + i].split] throws when the token is absent. *)
Fixpoint parseFace (values : list string) (i n : nat) (face : Face)
  : Completion Face :=
  match n with
  | O => Normal face
  | S n' =>
      match values !! (1 + i)%nat with
      | Some token => parseFace values (S i) n' (face ++ [parseCorner token])
      | None => Throw
      end
  end.

(** The [switch] of the [forEach] callback, on the tokens of a line. *)
Definition parseDirective (result : ParsedTetFile F) (values : list string)
  : Completion (ParsedTetFile F) :=
  let arg (k : nat) : string := ToString (values !! k) in
  match values !! 0%nat with
  | None => Normal result
  | Some directive =>
      if String.eqb directive "v" then
        Normal {| Parsed.vertices :=
                    Parsed.vertices result ++
                    [parseFloat (arg 1%nat); parseFloat (arg 2%nat);
                     parseFloat (arg 3%nat)];
                  Parsed.texCoords := Parsed.texCoords result;
                  Parsed.faces := Parsed.faces result;
                  Parsed.tetsIndices := Parsed.tetsIndices result |}
      else if String.eqb directive "vt" then
        Normal {| Parsed.vertices := Parsed.vertices result;
                  Parsed.texCoords :=
                    Parsed.texCoords result ++
                    [parseFloat (arg 1%nat); parseFloat (arg 2%nat)];
                  Parsed.faces := Parsed.faces result;
                  Parsed.tetsIndices := Parsed.tetsIndices result |}
      else if String.eqb directive "f" then
        let! face := parseFace values 0 3 [] in
        Normal {| Parsed.vertices := Parsed.vertices result;
                  Parsed.texCoords := Parsed.texCoords result;
                  Parsed.faces := Parsed.faces result ++ [face];
                  Parsed.tetsIndices := Parsed.tetsIndices result |}
      else if String.eqb directive "t" then
        Normal {| Parsed.vertices := Parsed.vertices result;
                  Parsed.texCoords := Parsed.texCoords result;
                  Parsed.faces := Parsed.faces result;
                  Parsed.tetsIndices :=
                    Parsed.tetsIndices result ++
                    [jsub (parseInt (arg 1%nat)) 1;
                     jsub (parseInt (arg 2%nat)) 1;
                     jsub (parseInt (arg 3%nat)) 1;
                     jsub (parseInt (arg 4%nat)) 1] |}
      else Normal result
  end.

(** The body of the [forEach] callback. *)
Definition parseLine (result : ParsedTetFile F) (line : string)
  : Completion (ParsedTetFile F) :=
  let line := trim line in
  if startsWith line "#" then Normal result
  else
    let values := split " " line in
    if (length values <? 1)%nat then Normal result
    else parseDirective result values.

(** [lines.forEach]: an exception of the callback ends the traversal. *)
Fixpoint forEach_line (lines : list string) (result : ParsedTetFile F)
  : Completion (ParsedTetFile F) :=
  match lines with
  | [] => Normal result
  | line :: rest =>
      let! result' := parseLine result line in forEach_line rest result'
  end.

Definition empty_parsed : ParsedTetFile F :=
  {| Parsed.vertices := []; Parsed.texCoords := [];
     Parsed.faces := []; Parsed.tetsIndices := [] |}.

Definition parseTetFile (text : string) : Completion (ParsedTetFile F) :=
  forEach_line (split_lines text) empty_parsed.
End Parser.

(** ** TetFile.recalcNormals and TetFile.copyDataToBuffer *)

Section Mesh.
Context {F : Type} `{Float64 F}.

(** [face[k][0]]: throws when [face[k]] is [undefined]. *)
Definition cornerVertex (face : Face) (k : nat) : Completion JSValue :=
  match face !! k with
  | Some faceEntry => Normal (faceEntry !! 0%nat)
  | None => Throw
  end.

(** [this.vertices[v * 3 + k]] as an operand of arithmetic. *)
Definition coordinate (vertices : list F) (v : JSValue) (k : Z) : F :=
  num (ta_get vertices (flat_index v 3 k)).

(** Lines 58-85 of the first loop: the unit normal and the area of the
    triangle with corners (x0,y0,z0), (x1,y1,z1), (x2,y2,z2). *)
Definition faceNormalAndArea (x0 y0 z0 x1 y1 z1 x2 y2 z2 : F) : F * F * F * F :=
  (let xA := x0 - x1 in
   let yA := y0 - y1 in
   let zA := z0 - z1 in
   let xB := x0 - x2 in
   let yB := y0 - y2 in
   let zB := z0 - z2 in
   let xC := x1 - x2 in
   let yC := y1 - y2 in
   let zC := z1 - z2 in
   let a := Math_hypot xA yA zA in
   let b := Math_hypot xB yB zB in
   let c := Math_hypot xC yC zC in
   let s := (a + b + c) * f_half in
   let area := Math_sqrt (s * (s - a) * (s - b) * (s - c)) in
   let xN := yA * zB - zA * yB in
   let yN := zA * xB - xA * zB in
   let zN := xA * yB - yA * xB in
   let n := Math_hypot xN yN zN in
   (xN / n, yN / n, zN / n, area))%fl.

(** What the first loop computes for a face whose three corners name the
    vertices [v0], [v1], [v2]. *)
Definition faceGeometry (vertices : list F) (v0 v1 v2 : JSValue) : F * F * F * F :=
  faceNormalAndArea
    (coordinate vertices v0 0) (coordinate vertices v0 1) (coordinate vertices v0 2)
    (coordinate vertices v1 0) (coordinate vertices v1 1) (coordinate vertices v1 2)
    (coordinate vertices v2 0) (coordinate vertices v2 1) (coordinate vertices v2 2).

(** The first loop of [recalcNormals], from face [faceIndex] on. *)
Fixpoint recalcFaceNormals (vertices : list F) (faces : list Face) (faceIndex : nat)
    (faceNormals faceAreas : list F) : Completion (list F * list F) :=
  match faces with
  | [] => Normal (faceNormals, faceAreas)
  | face :: rest =>
      let! v0 := cornerVertex face 0 in
      let! v1 := cornerVertex face 1 in
      let! v2 := cornerVertex face 2 in
      let '(xn, yn, zn, area) := faceGeometry vertices v0 v1 v2 in
      let faceNormals := ta_store faceNormals (faceIndex * 3 + 0) xn in
      let faceNormals := ta_store faceNormals (faceIndex * 3 + 1) yn in
      let faceNormals := ta_store faceNormals (faceIndex * 3 + 2) zn in
      let faceAreas := ta_store faceAreas faceIndex area in
      recalcFaceNormals vertices rest (S faceIndex) faceNormals faceAreas
  end%nat.

(** The inner loop of the second loop: the sums over the connected faces. *)
Definition sumConnected (faceNormals faceAreas : list F) (connections : list nat)
  : F * F * F * F :=
  fold_left
    (fun '(vnx, vny, vnz, areaSum) faceIndex =>
       let fnx := faceNormals !! (faceIndex * 3 + 0)%nat in
       let fny := faceNormals !! (faceIndex * 3 + 1)%nat in
       let fnz := faceNormals !! (faceIndex * 3 + 2)%nat in
       let faceArea := faceAreas !! faceIndex in
       (vnx + num fnx, vny + num fny, vnz + num fnz, areaSum + num faceArea)%fl)
    connections (f_zero, f_zero, f_zero, f_zero).

(** Lines 94-120: the normal of a vertex with the given connected faces. *)
Definition vertexNormal (faceNormals faceAreas : list F) (connections : list nat)
  : F * F * F :=
  let '(vnx, vny, vnz, areaSum) := sumConnected faceNormals faceAreas connections in
  (let vnx := vnx / areaSum in
   let vny := vny / areaSum in
   let vnz := vnz / areaSum in
   let len := Math_hypot vnx vny vnz in
   (vnx / len, vny / len, vnz / len))%fl.

(** The body of the second loop for one entry of the Map. *)
Definition recalcVertexNormal (faceNormals faceAreas : list F)
    (normals : list F) (entry : JSValue * list nat) : list F :=
  let vertexIndex := entry.1 in
  let connections := entry.2 in
  let '(vnx, vny, vnz) := vertexNormal faceNormals faceAreas connections in
  let normals := ta_set normals (flat_index vertexIndex 3 0) vnx in
  let normals := ta_set normals (flat_index vertexIndex 3 1) vny in
  ta_set normals (flat_index vertexIndex 3 2) vnz.

(** The second loop of [recalcNormals]. *)
Definition recalcVertexNormals (faceNormals faceAreas : list F)
    (connectedFaces : JSMap) (normals : list F) : list F :=
  fold_left (recalcVertexNormal faceNormals faceAreas) connectedFaces normals.

(** The shape shared by the three per-corner loops: every corner of every
    face in order, with a counter that grows by one per corner. *)
Fixpoint forEachEntry (body : nat -> Corner -> list F -> list F)
    (face : Face) (vertexIndex : nat) (buffer : list F) : nat * list F :=
  match face with
  | [] => (vertexIndex, buffer)
  | faceEntry :: rest =>
      forEachEntry body rest (S vertexIndex) (body vertexIndex faceEntry buffer)
  end.

Fixpoint forEachCorner (body : nat -> Corner -> list F -> list F)
    (faces : list Face) (vertexIndex : nat) (buffer : list F) : list F :=
  match faces with
  | [] => buffer
  | face :: rest =>
      let '(vertexIndex', buffer') := forEachEntry body face vertexIndex buffer in
      forEachCorner body rest vertexIndex' buffer'
  end.

(** Lines 134-138 and 157-159: three floats of the vertex of the corner. *)
Definition copyVertexEntry (source : list F) (vertexVisualIndex : nat)
    (faceEntry : Corner) (buffer : list F) : list F :=
  let vertexIndex := faceEntry !! 0%nat in
  let buffer := ta_store buffer (vertexVisualIndex * 3 + 0)
                  (num (ta_get source (flat_index vertexIndex 3 0))) in
  let buffer := ta_store buffer (vertexVisualIndex * 3 + 1)
                  (num (ta_get source (flat_index vertexIndex 3 1))) in
  ta_store buffer (vertexVisualIndex * 3 + 2)
    (num (ta_get source (flat_index vertexIndex 3 2))).

(** Lines 232-233: two floats of the texture coordinate of the corner. *)
Definition copyTexCoordEntry (texCoords : list F) (vertexIndex : nat)
    (faceEntry : Corner) (buffer : list F) : list F :=
  let texIndex := faceEntry !! 1%nat in
  let buffer := ta_store buffer (vertexIndex * 2 + 0)
                  (num (ta_get texCoords (flat_index texIndex 2 0))) in
  ta_store buffer (vertexIndex * 2 + 1)
    (num (ta_get texCoords (flat_index texIndex 2 1))).

(** [if (this.geometry) this.geometry.attributes.normal.needsUpdate = true]. *)
Definition markNormal (geometry : option BufferGeometry) : option BufferGeometry :=
  match geometry with
  | Some g => Some {| position_needsUpdate := position_needsUpdate g;
                      uv_needsUpdate := uv_needsUpdate g;
                      normal_needsUpdate := true |}
  | None => None
  end.

(** [if (this.geometry) this.geometry.attributes.position.needsUpdate = true]. *)
Definition markPosition (geometry : option BufferGeometry) : option BufferGeometry :=
  match geometry with
  | Some g => Some {| position_needsUpdate := true;
                      uv_needsUpdate := uv_needsUpdate g;
                      normal_needsUpdate := normal_needsUpdate g |}
  | None => None
  end.

Definition recalcNormals (this : TetFile F) : Completion (TetFile F) :=
  let! fs := recalcFaceNormals (vertices this) (faces this) 0
               (faceNormals this) (faceAreas this) in
  let normals' := recalcVertexNormals fs.1 fs.2 (connectedFaces this) (normals this) in
  let verticesNormals' :=
    forEachCorner (copyVertexEntry normals') (faces this) 0 (verticesNormals this) in
  Normal {| vertices := vertices this;
            tetsIndices := tetsIndices this;
            normals := normals';
            texCoords := texCoords this;
            faceNormals := fs.1;
            faceAreas := fs.2;
            faces := faces this;
            connectedFaces := connectedFaces this;
            verticesPositions := verticesPositions this;
            verticesTexCoords := verticesTexCoords this;
            verticesNormals := verticesNormals';
            geometry := markNormal (geometry this);
            triangleCount := triangleCount this |}.

Definition copyDataToBuffer (this : TetFile F) : TetFile F :=
  {| vertices := vertices this;
     tetsIndices := tetsIndices this;
     normals := normals this;
     texCoords := texCoords this;
     faceNormals := faceNormals this;
     faceAreas := faceAreas this;
     faces := faces this;
     connectedFaces := connectedFaces this;
     verticesPositions :=
       forEachCorner (copyVertexEntry (vertices this)) (faces this) 0
         (verticesPositions this);
     verticesTexCoords := verticesTexCoords this;
     verticesNormals := verticesNormals this;
     geometry := markPosition (geometry this);
     triangleCount := triangleCount this |}.

(** ** Loader.loadTet, from the fetched text on *)

(** Lines 210-215: one corner of one face. *)
Definition connect (connectedFaces : JSMap) (vertexIndex : JSValue) (faceIndex : nat)
  : JSMap :=
  let connections := default [] (Map_get connectedFaces vertexIndex) in
  let connections :=
    if includes connections faceIndex then connections
    else connections ++ [faceIndex] in
  Map_set connectedFaces vertexIndex connections.

(** The inner loop of the adjacency build, from corner [faceVertexIndex]
    for [n] more rounds. *)
Fixpoint connectFace (face : Face) (faceIndex faceVertexIndex n : nat)
    (connectedFaces : JSMap) : Completion JSMap :=
  match n with
  | O => Normal connectedFaces
  | S n' =>
      let! vertexIndex := cornerVertex face faceVertexIndex in
      connectFace face faceIndex (S faceVertexIndex) n'
        (connect connectedFaces vertexIndex faceIndex)
  end.

(** Lines 208-217, from face [faceIndex] on. *)
Fixpoint fillConnectedFaces (faces : list Face) (faceIndex : nat)
    (connectedFaces : JSMap) : Completion JSMap :=
  match faces with
  | [] => Normal connectedFaces
  | face :: rest =>
      let! connectedFaces' := connectFace face faceIndex 0 3 connectedFaces in
      fillConnectedFaces rest (S faceIndex) connectedFaces'
  end.

(** [new Float32Array(n)]. *)
Definition new_Float32Array (n : nat) : list F := replicate n f_zero.

(** Lines 191-237: the mesh as it is before [recalcNormals] first runs. *)
Definition buildMesh (tet : ParsedTetFile F) : Completion (TetFile F) :=
  let triangleCount := length (Parsed.faces tet) in
  let vertices := map fround (Parsed.vertices tet) in
  let texCoords := map fround (Parsed.texCoords tet) in
  let! connectedFaces := fillConnectedFaces (Parsed.faces tet) 0 [] in
  Normal {| vertices := vertices;
            tetsIndices := map ToUint32 (Parsed.tetsIndices tet);
            normals := new_Float32Array (length vertices * 3);
            texCoords := texCoords;
            faceNormals := new_Float32Array (triangleCount * 3);
            faceAreas := new_Float32Array triangleCount;
            faces := Parsed.faces tet;
            connectedFaces := connectedFaces;
            verticesPositions := new_Float32Array (triangleCount * 3 * 3);
            verticesTexCoords :=
              forEachCorner (copyTexCoordEntry texCoords) (Parsed.faces tet) 0
                (new_Float32Array (triangleCount * 3 * 2));
            verticesNormals := new_Float32Array (triangleCount * 3 * 3);
            geometry := None;
            triangleCount := triangleCount |}.

(** Lines 243-246: the geometry over the three per-corner buffers. *)
Definition new_BufferGeometry : BufferGeometry :=
  {| position_needsUpdate := false; uv_needsUpdate := false;
     normal_needsUpdate := false |}.

Definition setGeometry (this : TetFile F) (g : BufferGeometry) : TetFile F :=
  {| vertices := vertices this;
     tetsIndices := tetsIndices this;
     normals := normals this;
     texCoords := texCoords this;
     faceNormals := faceNormals this;
     faceAreas := faceAreas this;
     faces := faces this;
     connectedFaces := connectedFaces this;
     verticesPositions := verticesPositions this;
     verticesTexCoords := verticesTexCoords this;
     verticesNormals := verticesNormals this;
     geometry := Some g;
     triangleCount := triangleCount this |}.

(** Lines 187-250, on the text that [fetchText] delivered: the body of the
    executor of the promise that [loadTet] returns.  [Normal result] is the
    mesh the body passes to [resolve], which fulfils the promise.  [Throw] is
    an exception raised in the body: the executor is an [async] function, so
    the exception is not thrown to the caller of [loadTet] and does not
    reject the promise; [resolve] is not reached and [reject] is called
    nowhere, so the promise stays pending. *)
Definition loadTet (text : string) : Completion (TetFile F) :=
  let! tet := parseTetFile text in
  let! result := buildMesh tet in
  let! result := recalcNormals result in
  let result := copyDataToBuffer result in
  Normal (setGeometry result new_BufferGeometry).
End Mesh.

(** ** Render.getTetModel and Render.updateTetModel (src/ts/render.ts) *)

(** The renderer, as far as the mesh functions see it: the field [donut],
    [undefined] until the mesh is loaded. *)
Record Render (F : Type) : Type := {
  donut : option (TetFile F)
}.
Arguments donut {F} _.

Section RenderModel.
Context {F : Type} `{Float64 F}.

Definition getTetModel (this : Render F) : option (TetFile F) := donut this.

(** [tetModel.recalcNormals()] throws when [tetModel] is [undefined]; the
    mesh is changed in place, so [donut] is the changed mesh. *)
Definition updateTetModel (this : Render F) : Completion (Render F) :=
  match getTetModel this with
  | Some tetModel =>
      let! tetModel := recalcNormals tetModel in
      Normal {| donut := Some (copyDataToBuffer tetModel) |}
  | None => Throw
  end.
End RenderModel.

(** ** Vocabulary of the specification *)

(** Tokens with the separator [sep] between them. *)
Fixpoint joinWith (sep : string) (tokens : list string) : string :=
  match tokens with
  | [] => ""
  | [token] => token
  | token :: rest => token ++ sep ++ joinWith sep rest
  end.

(** Tokens separated by single spaces. *)
Definition joinTokens (tokens : list string) : string := joinWith " " tokens.

(** A horizontal tab. *)
Definition tab : string := String "009" EmptyString.

(** The decimal numeral of a natural number. *)
Definition decimal (n : N) : string := NilZero.string_of_uint (N.to_uint n).

(** A corner token [m/n]. *)
Definition cornerToken (m n : N) : string := decimal m ++ "/" ++ decimal n.

(** The character [c] occurs in [s]. *)
Fixpoint contains (c : ascii) (s : string) : bool :=
  match s with
  | EmptyString => false
  | String c' s' => Ascii.eqb c' c || contains c s'
  end.

(** Some character of [s] is white space. *)
Fixpoint has_whitespace (s : string) : bool :=
  match s with
  | EmptyString => false
  | String c s' => is_whitespace c || has_whitespace s'
  end.

(** The first token of a line that is no comment. *)
Definition directiveOf (line : string) : option string :=
  let line := trim line in
  if startsWith line "#" then None else split " " line !! 0%nat.

Definition is_directive (d : string) (line : string) : bool :=
  match directiveOf line with
  | Some d' => String.eqb d' d
  | None => false
  end.

(** The number of lines with the directive [d]. *)
Fixpoint count_directive (d : string) (lines : list string) : nat :=
  match lines with
  | [] => 0
  | line :: rest =>
      ((if is_directive d line then 1 else 0) + count_directive d rest)%nat
  end.

(** The number of tokens a directive reads, the directive included. *)
Definition arity (directive : string) : nat :=
  if String.eqb directive "v" then 4
  else if String.eqb directive "vt" then 3
  else if String.eqb directive "f" then 4
  else if String.eqb directive "t" then 5
  else 1.

(** A face line with fewer than three tokens after the [f]. *)
Definition short_face_line (line : string) : Prop :=
  exists rest, split " " (trim line) = "f" :: rest /\ (length rest < 3)%nat.

(** The text with a carriage return before every line feed. *)
Fixpoint crlf (text : string) : string :=
  match text with
  | EmptyString => EmptyString
  | String c s =>
      if Ascii.eqb c "010" then String "013" (String "010" (crlf s))
      else String c (crlf s)
  end.

(** Vectors, and the formulas of the specification in its own words. *)
Section SpecGeometry.
Context {F : Type} `{Float64 F}.

Definition Vec3 : Type := F * F * F.

Definition vsub (p q : Vec3) : Vec3 :=
  let '(px, py, pz) := p in
  let '(qx, qy, qz) := q in
  (px - qx, py - qy, pz - qz)%fl.

Definition vadd (p q : Vec3) : Vec3 :=
  let '(px, py, pz) := p in
  let '(qx, qy, qz) := q in
  (px + qx, py + qy, pz + qz)%fl.

Definition vscale (k : F) (p : Vec3) : Vec3 :=
  let '(px, py, pz) := p in (k * px, k * py, k * pz)%fl.

Definition vdiv (p : Vec3) (d : F) : Vec3 :=
  let '(px, py, pz) := p in (px / d, py / d, pz / d)%fl.

Definition cross (a b : Vec3) : Vec3 :=
  let '(ax, ay, az) := a in
  let '(bx, b_y, bz) := b in
  (ay * bz - az * b_y, az * bx - ax * bz, ax * b_y - ay * bx)%fl.

(** The Euclidean norm. *)
Definition norm (a : Vec3) : F :=
  let '(ax, ay, az) := a in Math_hypot ax ay az.

Definition normalize (a : Vec3) : Vec3 := vdiv a (norm a).

(** "N = (P0 - P1) x (P0 - P2); normalize by dividing by |N|". *)
Definition spec_faceNormal (P0 P1 P2 : Vec3) : Vec3 :=
  normalize (cross (vsub P0 P1) (vsub P0 P2)).

(** "s = (a+b+c)/2; area = sqrt(s(s-a)(s-b)(s-c))"; [two] is the Number 2. *)
Definition spec_heron (two a b c : F) : F :=
  (let s := (a + b + c) / two in
   Math_sqrt (s * (s - a) * (s - b) * (s - c)))%fl.

(** "A = P0-P1, B = P0-P2, C = P1-P2; edge lengths a=|A|, b=|B|, c=|C|". *)
Definition spec_faceArea (two : F) (P0 P1 P2 : Vec3) : F :=
  spec_heron two (norm (vsub P0 P1)) (norm (vsub P0 P2)) (norm (vsub P1 P2)).

(** "normalize(A1.N1 + A2.N2)". *)
Definition spec_vertexNormal2 (A1 : F) (N1 : Vec3) (A2 : F) (N2 : Vec3) : Vec3 :=
  normalize (vadd (vscale A1 N1) (vscale A2 N2)).

(** The position of the vertex a corner names. *)
Definition position (vertices : list F) (v : JSValue) : Vec3 :=
  (num (ta_get vertices (flat_index v 3 0)),
   num (ta_get vertices (flat_index v 3 1)),
   num (ta_get vertices (flat_index v 3 2))).
End SpecGeometry.

(** The flat triangle of the specification's first scenario. *)
Definition flat_triangle : string :=
  "v 0 0 0
v 1 0 0
v 0 1 0
vt 0 0
vt 1 0
vt 0 1
f 1/1 2/2 3/3
t 1 2 3 1".

(** Two triangles that share their first vertex: one of area 6 in the plane
    z = 0 and one of area 24 in the plane y = 0. *)
Definition fan : string :=
  "v 0 0 0
v 3 0 0
v 0 4 0
v 0 0 6
v 8 0 0
vt 0 0
f 1/1 2/1 3/1
f 1/1 4/1 5/1".

(** A triangle without texture coordinates whose third corner names a vertex
    the text does not have, and a fourth vertex that no face names. *)
Definition bare_triangle : string :=
  "v 0 0 0
v 1 0 0
v 0 1 0
v 5 5 5
f 1 2 7".

(** ** Exact real arithmetic as an instance of [Float64] *)

Module Ideal.
(** Coordinates without rounding: finite results are exact reals and every
    exceptional result (a division by zero, the root of a negative number,
    an infinite literal) is the one element [INaN].  This is not the
    arithmetic the program runs, which rounds to binary64 and to float32: the
    instance serves to run the code on given inputs, and the properties of
    all inputs are stated over an arbitrary [Float64]. *)
Inductive ideal : Type :=
| INaN
| IReal (r : R).

Definition lift2 (op : R -> R -> R) (x y : ideal) : ideal :=
  match x, y with
  | IReal a, IReal b => IReal (op a b)
  | _, _ => INaN
  end.

Definition ideal_div (x y : ideal) : ideal :=
  match x, y with
  | IReal a, IReal b => if Req_dec_T b 0 then INaN else IReal (a / b)
  | _, _ => INaN
  end.

Definition ideal_sqrt (x : ideal) : ideal :=
  match x with
  | IReal a => if Rlt_dec a 0 then INaN else IReal (sqrt a)
  | INaN => INaN
  end.

Definition ideal_hypot (x y z : ideal) : ideal :=
  match x, y, z with
  | IReal a, IReal b, IReal c => IReal (sqrt (a * a + b * b + c * c))
  | _, _, _ => INaN
  end.

(** The longest prefix of decimal digits of [s], read onto the mantissa
    [acc]: the new mantissa, the number of digits read and the rest. *)
Fixpoint take_digits (s : string) (acc : Z) (count : Z) : Z * Z * string :=
  match s with
  | EmptyString => (acc, count, s)
  | String c s' =>
      match digit_of 10 c with
      | Some d => take_digits s' (acc * 10 + d) (count + 1)
      | None => (acc, count, s)
      end
  end.

Definition take_fraction (s : string) (mantissa : Z) : Z * Z * string :=
  match s with
  | String c s' =>
      if Ascii.eqb c "." then take_digits s' mantissa 0 else (mantissa, 0, s)
  | EmptyString => (mantissa, 0, s)
  end.

Definition take_exponent (s : string) : Z :=
  match s with
  | String c s' =>
      if Ascii.eqb c "e" || Ascii.eqb c "E" then
        let '(sign, s1) := strip_sign s' in
        let '(ev, ne, _) := take_digits s1 0 0 in
        if ne =? 0 then 0 else sign * ev
      else 0
  | EmptyString => 0
  end.

(** [parseFloat]: the longest prefix that is a decimal literal. *)
Definition ideal_parseFloat (s : string) : ideal :=
  let '(sign, s1) := strip_sign (trimStart s) in
  let '(ip, ni, s2) := take_digits s1 0 0 in
  let '(mantissa, nf, s3) := take_fraction s2 ip in
  if ni + nf =? 0 then INaN
  else IReal (IZR (sign * mantissa) * powerRZ 10 (take_exponent s3 - nf)).

#[export] Instance ideal_Float64 : Float64 ideal := {|
  f_zero := IReal 0;
  f_half := IReal (1 / 2);
  f_nan := INaN;
  f_add := lift2 Rplus;
  f_sub := lift2 Rminus;
  f_mul := lift2 Rmult;
  f_div := ideal_div;
  Math_sqrt := ideal_sqrt;
  Math_hypot := ideal_hypot;
  fround := fun x => x;
  parseFloat := ideal_parseFloat
|}.

(** The mesh of [flat_triangle] as [buildMesh] returns it. *)
Definition flat_triangle_mesh : TetFile ideal :=
  {| vertices := map IReal [0; 0; 0; 1; 0; 0; 0; 1; 0]%R;
     tetsIndices := [0; 1; 2; 0];
     normals := replicate 27 (IReal 0);
     texCoords := map IReal [0; 0; 1; 0; 0; 1]%R;
     faceNormals := replicate 3 (IReal 0);
     faceAreas := replicate 1 (IReal 0);
     faces := [[[Int 0; Int 0]; [Int 1; Int 1]; [Int 2; Int 2]]];
     connectedFaces :=
       [(Some (Int 0), [0%nat]); (Some (Int 1), [0%nat]); (Some (Int 2), [0%nat])];
     verticesPositions := replicate 9 (IReal 0);
     verticesTexCoords := map IReal [0; 0; 1; 0; 0; 1]%R;
     verticesNormals := replicate 9 (IReal 0);
     geometry := None;
     triangleCount := 1 |}.

(** The mesh of [fan] as [buildMesh] returns it. *)
Definition fan_mesh : TetFile ideal :=
  {| vertices := map IReal [0; 0; 0; 3; 0; 0; 0; 4; 0; 0; 0; 6; 8; 0; 0]%R;
     tetsIndices := [];
     normals := replicate 45 (IReal 0);
     texCoords := map IReal [0; 0]%R;
     faceNormals := replicate 6 (IReal 0);
     faceAreas := replicate 2 (IReal 0);
     faces := [[[Int 0; Int 0]; [Int 1; Int 0]; [Int 2; Int 0]];
               [[Int 0; Int 0]; [Int 3; Int 0]; [Int 4; Int 0]]];
     connectedFaces :=
       [(Some (Int 0), [0%nat; 1%nat]); (Some (Int 1), [0%nat]);
        (Some (Int 2), [0%nat]); (Some (Int 3), [1%nat]); (Some (Int 4), [1%nat])];
     verticesPositions := replicate 18 (IReal 0);
     verticesTexCoords := replicate 12 (IReal 0);
     verticesNormals := replicate 18 (IReal 0);
     geometry := None;
     triangleCount := 2 |}.
End Ideal.

(** ** Vocabulary of the proofs *)

(** A string that [trimEnd] leaves alone, and so does every extension of it
    to the left. *)
Definition clean_end (s : string) : Prop := s <> "" /\ trimEnd s = s.

Section StoreSequences.
Context {F : Type}.

(** A sequence of stores of fixed values at fixed places. *)
Definition stores (ws : list (nat * F)) (buf : list F) : list F :=
  fold_left (fun b w => <[w.1 := w.2]> b) ws buf.

(** The value the last store at place [i] leaves there. *)
Fixpoint written (ws : list (nat * F)) (i : nat) : option F :=
  match ws with
  | [] => None
  | w :: ws' =>
      match written ws' i with
      | Some v => Some v
      | None => if decide (w.1 = i) then Some w.2 else None
      end
  end.

(** A buffer transformer that is such a sequence of stores. *)
Definition is_stores (g : list F -> list F) : Prop :=
  exists ws, forall buf, g buf = stores ws buf.
End StoreSequences.

(** The shape of a mesh: what no recomputation changes. *)
Definition same_shape {F : Type} (s s' : TetFile F) : Prop :=
  vertices s' = vertices s /\
  tetsIndices s' = tetsIndices s /\
  texCoords s' = texCoords s /\
  faces s' = faces s /\
  connectedFaces s' = connectedFaces s /\
  triangleCount s' = triangleCount s /\
  length (normals s') = length (normals s) /\
  length (faceNormals s') = length (faceNormals s) /\
  length (faceAreas s') = length (faceAreas s) /\
  length (verticesPositions s') = length (verticesPositions s) /\
  length (verticesTexCoords s') = length (verticesTexCoords s) /\
  length (verticesNormals s') = length (verticesNormals s).

(** A face as the parser builds it: three corners, none without indices. *)
Definition triangle (face : Face) : Prop :=
  length face = 3%nat /\ Forall (fun corner : Corner => corner <> []) face.

(** What holds of the parser's result after every line. *)
Definition parsed_ok {F : Type} (tet : ParsedTetFile F) : Prop :=
  Forall triangle (Parsed.faces tet) /\
  exists k, length (Parsed.vertices tet) = (3 * k)%nat.

(** [m] is the adjacency of the incidences [S]: a vertex index has an entry
    exactly when some face is incident to it, and the entry lists the
    incident faces, each once. *)
Definition adjacency_of (S : JSValue -> nat -> Prop) (m : JSMap) : Prop :=
  forall v,
    match Map_get m v with
    | Some l => l <> [] /\ NoDup l /\ forall f, f ∈ l <-> S v f
    | None => forall f, ~ S v f
    end.

(** Every list of connected faces is ascending and below [bound]. *)
Definition ascending_below (bound : nat) (m : JSMap) : Prop :=
  Forall (fun entry : JSValue * list nat =>
            StronglySorted lt entry.2 /\ Forall (fun f => (f < bound)%nat) entry.2) m.

(** Face [f] of [faces] names the vertex index [v] in one of its corners. *)
Definition incident (faces : list Face) (v : JSValue) (f : nat) : Prop :=
  exists (face : Face) (corner : Corner),
    faces !! f = Some face /\ corner ∈ face /\ corner !! 0%nat = v.

(** The number of vertices of a mesh: three floats each. *)
Definition vertexCount {F : Type} (s : TetFile F) : nat := (length (vertices s) / 3)%nat.

(** Every face has its three corners: the first loops do not throw. *)
Definition three_corners (faces : list Face) : Prop :=
  Forall (fun face : Face => (3 <= length face)%nat) faces.

(** One step of [parse_digits] on a numeral, evaluated. *)
Ltac read_digit :=
  cbn [NilEmpty.string_of_uint parse_digits];
  match goal with
  | |- context [digit_of 10 ?c] =>
      let v := eval vm_compute in (Z.of_nat (nat_of_ascii c) - 48) in
      change (digit_of 10 c) with (Some v)
  end;
  cbn [default from_option]; unfold Datatypes.id.

(** Projections of a mesh applied to a mesh given field by field. *)
Ltac simpl_fields :=
  cbn [vertices tetsIndices normals texCoords faceNormals faceAreas faces
       connectedFaces verticesPositions verticesTexCoords verticesNormals
       geometry triangleCount fst snd cbind].

Ltac simpl_fields_in H :=
  cbn [vertices tetsIndices normals texCoords faceNormals faceAreas faces
       connectedFaces verticesPositions verticesTexCoords verticesNormals
       geometry triangleCount fst snd cbind] in H.

(** Reads of concrete coordinates, evaluated. *)
Ltac read_coordinates H :=
  repeat match type of H with
         | context [coordinate ?vs ?v ?k] =>
             let r := eval cbv -[IZR] in (coordinate vs v k) in
             change (coordinate vs v k) with r in H
         end.

(** * Properties *)

(** ** Strings and tokens *)

Lemma cons_head_inv c l h t :
  cons_head c l = h :: t -> exists h', h = String c h'.
Proof. destruct l; simpl; intros [= <- <-]; eauto. Qed.

Lemma split_nonempty sep s : split sep s <> [].
Proof.
  destruct s as [|c s]; simpl; [done|].
  destruct (Ascii.eqb c sep); [done|].
  destruct (split sep s); done.
Qed.

(** The first token of a line is a prefix of the line. *)
Lemma split_first_char s c tok rest :
  split " " s = String c tok :: rest -> startsWith s "#" = Ascii.eqb c "#".
Proof.
  destruct s as [|c' s]; simpl; [intros [=]|].
  destruct (Ascii.eqb c' " ") eqn:E; [intros [=]|].
  intros Hs. apply cons_head_inv in Hs as Hh. destruct Hh as [h' [= -> _]]. done.
Qed.

Section ParserFacts.
Context {F : Type} `{Float64 F}.

Lemma parseFace_short values :
  (length values < 4)%nat -> parseFace values 0 3 [] = Throw.
Proof.
  intros Hlen.
  destruct values as [|v0 [|v1 [|v2 [|v3 vs]]]]; simpl in *; try done; lia.
Qed.

Lemma parseLine_short_face (result : ParsedTetFile F) line rest :
  split " " (trim line) = "f" :: rest -> (length rest < 3)%nat ->
  parseLine result line = Throw.
Proof.
  intros Hs Hlen. unfold parseLine.
  rewrite (split_first_char _ _ _ _ Hs), Hs.
  cbn -[parseFace].
  rewrite parseFace_short; [done | simpl; lia].
Qed.

Lemma forEach_line_throw lines line :
  line ∈ lines -> (forall result : ParsedTetFile F, parseLine result line = Throw) ->
  forall result, forEach_line lines result = Throw.
Proof.
  intros Hin Hthrow. induction lines as [|l lines IH]; intros result.
  - by apply elem_of_nil in Hin.
  - simpl. apply elem_of_cons in Hin as [<- | Hin].
    + by rewrite Hthrow.
    + destruct (parseLine result l); simpl; [by apply IH | done].
Qed.
End ParserFacts.

(** *** Splitting and joining *)

Lemma split_no_sep sep s : contains sep s = false -> split sep s = [s].
Proof.
  induction s as [|c s IH]; simpl; [done|].
  intros [Hc Hs]%orb_false_elim. rewrite Hc, (IH Hs). done.
Qed.

Lemma split_app_sep sep s1 s2 :
  contains sep s1 = false ->
  split sep (s1 ++ String sep s2)%string = s1 :: split sep s2.
Proof.
  induction s1 as [|c s1 IH]; simpl.
  - intros _. by rewrite Ascii.eqb_refl.
  - intros [Hc Hs]%orb_false_elim. rewrite Hc, (IH Hs). done.
Qed.

Lemma split_joinTokens tokens :
  tokens <> [] -> Forall (fun t => contains " " t = false) tokens ->
  split " " (joinTokens tokens) = tokens.
Proof.
  induction tokens as [|t [|t' rest] IH]; intros Hne Hall; [done| |].
  - simpl. apply split_no_sep. by inversion Hall.
  - inversion Hall as [|? ? Ht Hrest]; subst.
    change (joinTokens (t :: t' :: rest)) with (t ++ String " " (joinTokens (t' :: rest)))%string.
    rewrite split_app_sep by done. f_equal. by apply IH.
Qed.


Lemma trimEnd_no_whitespace s : has_whitespace s = false -> trimEnd s = s.
Proof.
  induction s as [|c s IH]; simpl; [done|].
  intros [Hc Hs]%orb_false_elim. rewrite (IH Hs), Hc. by destruct s.
Qed.

Lemma trimEnd_app s1 s2 :
  s2 <> "" -> trimEnd s2 = s2 -> trimEnd (s1 ++ s2)%string = (s1 ++ s2)%string.
Proof.
  intros Hne Hs2. induction s1 as [|c s1 IH]; simpl; [done|].
  rewrite IH. destruct (s1 ++ s2)%string eqn:E; [|done].
  destruct s1; simpl in E; [done | discriminate].
Qed.

Lemma trimStart_first c s : is_whitespace c = false -> trimStart (String c s) = String c s.
Proof. intros Hc. simpl. by rewrite Hc. Qed.

(** *** Decimal numerals *)

Lemma decimal_NilEmpty n : decimal n = NilEmpty.string_of_uint (N.to_uint n).
Proof.
  unfold decimal, NilZero.string_of_uint.
  destruct n as [|p]; [done|]. simpl.
  pose proof (DecimalPos.Unsigned.to_uint_nonnil p) as Hp.
  by destruct (Pos.to_uint p).
Qed.

Lemma to_uint_not_Nil n : N.to_uint n <> Decimal.Nil.
Proof.
  destruct n as [|p]; [done|]. apply DecimalPos.Unsigned.to_uint_nonnil.
Qed.

(** Every character of a numeral is a decimal digit: not a space, not a
    slash, not white space. *)
Lemma uint_chars d :
  contains " " (NilEmpty.string_of_uint d) = false /\
  contains "/" (NilEmpty.string_of_uint d) = false /\
  has_whitespace (NilEmpty.string_of_uint d) = false.
Proof. induction d; simpl; intuition. Qed.

Lemma uint_first_char d :
  d <> Decimal.Nil ->
  exists c s, NilEmpty.string_of_uint d = String c s /\
    is_whitespace c = false /\ Ascii.eqb c "-" = false /\ Ascii.eqb c "+" = false /\
    Ascii.eqb c "#" = false /\ strip_radix (String c s) = (10, String c s).
Proof.
  intros Hd.
  destruct d as [|d|d|d|d|d|d|d|d|d|d]; [done|..];
    (eexists _, _; split; [reflexivity|]; repeat split; destruct d; reflexivity).
Qed.

Lemma parse_digits_uint d a :
  parse_digits 10 (NilEmpty.string_of_uint d) (Some a) =
  Some (a * 10 ^ Z.of_N (DecimalPos.Unsigned.usize d)
        + Z.of_N (DecimalPos.Unsigned.of_lu (Decimal.rev d))).
Proof.
  revert a. induction d; intros a; [ simpl; f_equal; lia | .. ];
    read_digit; rewrite IHd; f_equal;
    match goal with
    | |- context [Decimal.rev (?D d)] =>
        change (Decimal.rev (D d)) with (Decimal.revapp d (D Decimal.Nil));
        rewrite (DecimalPos.Unsigned.of_lu_revapp d (D Decimal.Nil))
    end;
    cbn [DecimalPos.Unsigned.usize DecimalPos.Unsigned.of_lu];
    rewrite N2Z.inj_succ, Z.pow_succ_r by lia;
    rewrite N2Z.inj_add, N2Z.inj_mul, N2Z.inj_pow;
    try simpl (Z.of_N (_ + _)); try simpl (Z.of_N (_ * _)); simpl (Z.of_N 10); ring.
Qed.

Lemma parse_digits_decimal n :
  parse_digits 10 (decimal n) None = Some (Z.of_N n).
Proof.
  rewrite decimal_NilEmpty.
  pose proof (DecimalN.Unsigned.of_to n) as Hn.
  unfold N.of_uint in Hn. rewrite DecimalPos.Unsigned.of_uint_alt in Hn.
  pose proof (to_uint_not_Nil n) as Hnil.
  destruct (N.to_uint n) as [|d|d|d|d|d|d|d|d|d|d] eqn:E; [done|..];
    read_digit; rewrite parse_digits_uint; f_equal; rewrite <- Hn;
    match goal with
    | |- context [Decimal.rev (?D d)] =>
        change (Decimal.rev (D d)) with (Decimal.revapp d (D Decimal.Nil));
        rewrite (DecimalPos.Unsigned.of_lu_revapp d (D Decimal.Nil))
    end;
    cbn [DecimalPos.Unsigned.of_lu];
    rewrite N2Z.inj_add, N2Z.inj_mul, N2Z.inj_pow;
    try simpl (Z.of_N (_ + _)); try simpl (Z.of_N (_ * _)); simpl (Z.of_N 10); ring.
Qed.

Lemma norm64_small z : Z.abs z < 2 ^ 53 -> norm64 z = Int z.
Proof.
  intros Hz. unfold norm64.
  destruct (Z.eq_dec z 0) as [->|Hnz]; [done|].
  assert (Z.log2 (Z.abs z) < 53) by (apply Z.log2_lt_pow2; lia).
  destruct (Z.leb_spec (Z.log2 (Z.abs z) - 52) 0); [done | lia].
Qed.

Lemma parseInt_decimal n :
  (n < 2 ^ 53)%N -> parseInt (decimal n) = Int (Z.of_N n).
Proof.
  intros Hn. unfold parseInt.
  pose proof (parse_digits_decimal n) as Hp.
  rewrite decimal_NilEmpty in *.
  destruct (uint_first_char _ (to_uint_not_Nil n)) as (c & s & E & Hw & Hm & Hpl & _ & Hr).
  rewrite E in *.
  rewrite trimStart_first by done. unfold strip_sign. rewrite Hm, Hpl, Hr, Hp.
  rewrite Z.mul_1_l. apply norm64_small.
  assert (2 ^ 53 = Z.of_N (2 ^ 53)) as -> by done. lia.
Qed.

Lemma contains_app c s1 s2 :
  contains c (s1 ++ s2)%string = contains c s1 || contains c s2.
Proof.
  induction s1 as [|c' s1 IH]; simpl; [done|]. by rewrite IH, orb_assoc.
Qed.

Lemma decimal_chars n :
  contains " " (decimal n) = false /\ contains "/" (decimal n) = false /\
  has_whitespace (decimal n) = false.
Proof. rewrite decimal_NilEmpty. apply uint_chars. Qed.

Lemma decimal_nonempty n : decimal n <> "".
Proof.
  rewrite decimal_NilEmpty.
  destruct (uint_first_char _ (to_uint_not_Nil n)) as (c & s & -> & _). done.
Qed.

Lemma clean_end_app s1 s2 : clean_end s2 -> clean_end (s1 ++ s2)%string.
Proof.
  intros [Hne Ht]. split; [|by apply trimEnd_app].
  destruct s1; simpl; [done | discriminate].
Qed.

Lemma clean_end_cons c s : clean_end s -> clean_end (String c s).
Proof. apply (clean_end_app (String c "")). Qed.

Lemma clean_end_decimal n : clean_end (decimal n).
Proof.
  split; [apply decimal_nonempty|].
  apply trimEnd_no_whitespace, decimal_chars.
Qed.

Lemma cornerToken_no_space m n : contains " " (cornerToken m n) = false.
Proof.
  unfold cornerToken. rewrite !contains_app.
  destruct (decimal_chars m) as (-> & _), (decimal_chars n) as (-> & _). done.
Qed.

Lemma parseCorner_cornerToken m n :
  (m < 2 ^ 53)%N -> (n < 2 ^ 53)%N ->
  parseCorner (cornerToken m n) = [Int (Z.of_N m - 1); Int (Z.of_N n - 1)].
Proof.
  intros Hm Hn. unfold parseCorner, cornerToken.
  change (decimal m ++ "/" ++ decimal n)%string
    with (decimal m ++ String "/" (decimal n))%string.
  rewrite split_app_sep by apply decimal_chars.
  rewrite split_no_sep by apply decimal_chars.
  cbn [map]. rewrite !parseInt_decimal by done. cbn [jsub].
  assert (2 ^ 53 = Z.of_N (2 ^ 53)) as E by done.
  rewrite !norm64_small by lia. done.
Qed.

Lemma index_decimal n :
  (n < 2 ^ 53)%N -> jsub (parseInt (decimal n)) 1 = Int (Z.of_N n - 1).
Proof.
  intros Hn. rewrite parseInt_decimal by done. cbn [jsub].
  assert (2 ^ 53 = Z.of_N (2 ^ 53)) as E by done.
  apply norm64_small. lia.
Qed.

Section DirectiveLines.
Context {F : Type} `{Float64 F}.

(** A trimmed line that is no comment is handled through its tokens. *)
Lemma parseLine_joinTokens (result : ParsedTetFile F) tokens :
  tokens <> [] -> Forall (fun t => contains " " t = false) tokens ->
  trim (joinTokens tokens) = joinTokens tokens ->
  startsWith (joinTokens tokens) "#" = false ->
  parseLine result (joinTokens tokens) = parseDirective result tokens.
Proof.
  intros Hne Hall Htrim Hstart. unfold parseLine.
  rewrite Htrim, Hstart, split_joinTokens by done.
  destruct tokens; [done|]. done.
Qed.

(** ** C5: indices are converted from 1-based to 0-based *)

(** C5.  A corner token [m/n] is parsed to the corner [m-1, n-1]; a line
    [f a/ta b/tb c/tc] appends the face of the three converted corners and a
    line [t i1 i2 i3 i4] appends the four indices, each less one; so "5/2"
    yields 4 and 1 and [t 1 2 3 1] yields 0, 1, 2, 0.  The numerals range
    over the integers that a Number holds exactly. *)
Theorem index_conversion (result : ParsedTetFile F) (a ta b tb c tc i1 i2 i3 i4 : N) :
  Forall (fun n => (n < 2 ^ 53)%N) [a; ta; b; tb; c; tc; i1; i2; i3; i4] ->
  parseCorner (cornerToken a ta) = [Int (Z.of_N a - 1); Int (Z.of_N ta - 1)] /\
  parseLine result
    (joinTokens ["f"; cornerToken a ta; cornerToken b tb; cornerToken c tc]) =
    Normal {| Parsed.vertices := Parsed.vertices result;
              Parsed.texCoords := Parsed.texCoords result;
              Parsed.faces :=
                Parsed.faces result ++
                [[[Int (Z.of_N a - 1); Int (Z.of_N ta - 1)];
                  [Int (Z.of_N b - 1); Int (Z.of_N tb - 1)];
                  [Int (Z.of_N c - 1); Int (Z.of_N tc - 1)]]];
              Parsed.tetsIndices := Parsed.tetsIndices result |} /\
  parseLine result (joinTokens ["t"; decimal i1; decimal i2; decimal i3; decimal i4]) =
    Normal {| Parsed.vertices := Parsed.vertices result;
              Parsed.texCoords := Parsed.texCoords result;
              Parsed.faces := Parsed.faces result;
              Parsed.tetsIndices :=
                Parsed.tetsIndices result ++
                [Int (Z.of_N i1 - 1); Int (Z.of_N i2 - 1);
                 Int (Z.of_N i3 - 1); Int (Z.of_N i4 - 1)] |} /\
  parseCorner "5/2" = [Int 4; Int 1] /\
  parseLine (F:=F) empty_parsed "t 1 2 3 1" =
    Normal {| Parsed.vertices := []; Parsed.texCoords := []; Parsed.faces := [];
              Parsed.tetsIndices := [Int 0; Int 1; Int 2; Int 0] |}.
Proof.
  intros Hall.
  repeat match goal with
         | H : Forall _ (_ :: _) |- _ => apply Forall_cons in H as [? H]
         end.
  split; [by apply parseCorner_cornerToken|].
  split; [|split; [|split; [reflexivity|reflexivity]]].
  - rewrite parseLine_joinTokens.
    + cbn -[parseCorner]. rewrite !parseCorner_cornerToken by done. done.
    + done.
    + repeat constructor; try done; apply cornerToken_no_space.
    + unfold trim, joinTokens. cbn [joinWith String.append trimStart].
      change (is_whitespace "f") with false. cbv iota.
      unfold cornerToken.
      repeat first [apply clean_end_decimal | apply clean_end_cons | apply clean_end_app].
    + done.
  - rewrite parseLine_joinTokens.
    + cbn -[parseInt decimal]. rewrite !index_decimal by done. done.
    + done.
    + repeat constructor; try done; apply decimal_chars.
    + unfold trim, joinTokens. cbn [joinWith String.append trimStart].
      change (is_whitespace "t") with false. cbv iota.
      repeat first [apply clean_end_decimal | apply clean_end_cons | apply clean_end_app].
    + done.
Qed.

(** ** C10: a face line with fewer than three corner tokens *)

(** C10.  A text with a line whose first token is [f] and which has fewer
    than three tokens after it makes [parseTetFile] throw: the line is not
    skipped and no partial result is returned. *)
Theorem short_face_line_throws (text line : string) (rest : list string) :
  line ∈ split_lines text ->
  split " " (trim line) = "f" :: rest ->
  (length rest < 3)%nat ->
  parseTetFile (F:=F) text = Throw.
Proof.
  intros Hin Hs Hlen. unfold parseTetFile.
  apply forEach_line_throw with line; [done|].
  intros result. by apply parseLine_short_face with rest.
Qed.
End DirectiveLines.

(** ** C8: what separates the tokens of a directive line *)

(** Where the separator and the tokens are free of a character, so is the
    joined line. *)
Lemma contains_joinWith c sep tokens :
  contains c sep = false -> Forall (fun t => contains c t = false) tokens ->
  contains c (joinWith sep tokens) = false.
Proof.
  intros Hsep. induction tokens as [|t [|t' rest] IH]; intros Hall; [done| |].
  - by inversion Hall.
  - inversion Hall as [|? ? Ht Hrest]; subst.
    change (joinWith sep (t :: t' :: rest))
      with (t ++ sep ++ joinWith sep (t' :: rest))%string.
    rewrite !contains_app, Ht, Hsep. by apply IH.
Qed.

Lemma string_app_assoc (s1 s2 s3 : string) :
  (s1 ++ (s2 ++ s3) = (s1 ++ s2) ++ s3)%string.
Proof. induction s1 as [|c s1 IH]; simpl; [done|]. by rewrite IH. Qed.

Lemma joinTokens_app us vs :
  us <> [] -> vs <> [] ->
  joinTokens (us ++ vs) = (joinTokens us ++ " " ++ joinTokens vs)%string.
Proof.
  intros Hus Hvs. induction us as [|u [|u' us] IH]; [done| |].
  - by destruct vs.
  - change (joinTokens ((u :: u' :: us) ++ vs))
      with (u ++ " " ++ joinTokens ((u' :: us) ++ vs))%string.
    rewrite IH by done.
    change (joinTokens (u :: u' :: us)) with (u ++ " " ++ joinTokens (u' :: us))%string.
    by rewrite <- !string_app_assoc.
Qed.

(** A second space between two tokens of a line: an empty token between
    them. *)
Lemma split_double_space us vs :
  us <> [] -> vs <> [] ->
  Forall (fun t => contains " " t = false) us ->
  Forall (fun t => contains " " t = false) vs ->
  split " " (joinTokens us ++ "  " ++ joinTokens vs)%string = us ++ "" :: vs.
Proof.
  intros Hus Hvs Hnu Hnv.
  assert ((joinTokens us ++ "  " ++ joinTokens vs)%string = joinTokens (us ++ "" :: vs))
    as ->.
  { rewrite joinTokens_app by done. by destruct vs. }
  apply split_joinTokens; [by destruct us|].
  apply Forall_app. split; [done|]. by constructor.
Qed.

(** C8, as the code has it.  The tokens of a line are the pieces between
    single spaces: a trimmed line that is no comment and whose tokens contain
    no space is handled as the directive of exactly these tokens.  No other
    white space separates: with tabs in the place of the spaces the line is
    one token, and with a second space between two of the tokens there is an
    empty token between them. *)
Theorem tokens_split_at_single_spaces {F : Type} `{Float64 F}
    (result : ParsedTetFile F) (tokens : list string) :
  tokens <> [] -> Forall (fun t => contains " " t = false) tokens ->
  trim (joinTokens tokens) = joinTokens tokens ->
  startsWith (joinTokens tokens) "#" = false ->
  split " " (joinTokens tokens) = tokens /\
  parseLine result (joinTokens tokens) = parseDirective result tokens /\
  split " " (joinWith tab tokens) = [joinWith tab tokens] /\
  (forall us vs, tokens = us ++ vs -> us <> [] -> vs <> [] ->
     split " " (joinTokens us ++ "  " ++ joinTokens vs)%string = us ++ "" :: vs).
Proof.
  intros Hne Hall Htrim Hstart. split; [|split; [|split]].
  - by apply split_joinTokens.
  - by apply parseLine_joinTokens.
  - apply split_no_sep. by apply contains_joinWith.
  - intros us vs -> Hus Hvs. apply Forall_app in Hall as [Hnu Hnv].
    by apply split_double_space.
Qed.

(** ** Buffers *)

Section Stores.
Context {F : Type}.

Lemma stores_cons (w : nat * F) ws buf :
  stores (w :: ws) buf = stores ws (<[w.1 := w.2]> buf).
Proof. reflexivity. Qed.

Lemma length_stores (ws : list (nat * F)) buf : length (stores ws buf) = length buf.
Proof.
  revert buf. induction ws as [|w ws IH]; intros buf; [done|].
  by rewrite stores_cons, IH, length_insert.
Qed.

Lemma stores_app (ws1 ws2 : list (nat * F)) buf :
  stores (ws1 ++ ws2) buf = stores ws2 (stores ws1 buf).
Proof. apply fold_left_app. Qed.

Lemma stores_lookup (ws : list (nat * F)) buf i :
  stores ws buf !! i =
  match written ws i with
  | Some v => if decide (i < length buf)%nat then Some v else None
  | None => buf !! i
  end.
Proof.
  revert buf. induction ws as [|w ws IH]; intros buf; [done|].
  rewrite stores_cons, IH, length_insert. cbn [written].
  destruct (written ws i) as [v|]; [done|].
  destruct (decide (w.1 = i)) as [->|Hne].
  - destruct (decide (i < length buf)%nat) as [Hlt|Hge].
    + by apply list_lookup_insert_eq.
    + rewrite list_insert_ge by lia. apply lookup_ge_None. lia.
  - by apply list_lookup_insert_ne.
Qed.

(** Storing the same values at the same places once more changes nothing. *)
Lemma stores_idempotent (ws : list (nat * F)) buf : stores ws (stores ws buf) = stores ws buf.
Proof.
  apply list_eq. intros i. rewrite (stores_lookup ws (stores ws buf)).
  rewrite length_stores.
  destruct (written ws i) as [v|] eqn:E; [|done].
  by rewrite stores_lookup, E.
Qed.

Lemma is_stores_id : is_stores (fun buf : list F => buf).
Proof. by exists []. Qed.

Lemma is_stores_insert i (v : F) : is_stores (fun buf => <[i := v]> buf).
Proof. by exists [(i, v)]. Qed.

Lemma is_stores_compose (g1 g2 : list F -> list F) :
  is_stores g1 -> is_stores g2 -> is_stores (fun buf => g2 (g1 buf)).
Proof.
  intros [ws1 H1] [ws2 H2]. exists (ws1 ++ ws2). intros buf.
  by rewrite H2, H1, stores_app.
Qed.

Lemma is_stores_idempotent (g : list F -> list F) buf : is_stores g -> g (g buf) = g buf.
Proof. intros [ws Hws]. rewrite !Hws. apply stores_idempotent. Qed.

Lemma is_stores_length (g : list F -> list F) buf : is_stores g -> length (g buf) = length buf.
Proof. intros [ws Hws]. rewrite Hws. apply length_stores. Qed.

Lemma is_stores_fold {A} (step : list F -> A -> list F) (l : list A) :
  (forall a, is_stores (fun buf => step buf a)) ->
  is_stores (fun buf => fold_left step l buf).
Proof.
  intros Hstep. induction l as [|a l IH]; simpl; [apply is_stores_id|].
  apply (is_stores_compose (fun buf => step buf a) (fun buf => fold_left step l buf));
    [apply Hstep | apply IH].
Qed.

End Stores.

Section MeshFacts.
Context {F : Type} `{Float64 F}.

Lemma is_stores_ta_store i v : is_stores (fun buf : list F => ta_store buf i v).
Proof. apply is_stores_insert. Qed.

Lemma is_stores_ta_set i v : is_stores (fun buf : list F => ta_set buf i v).
Proof.
  unfold ta_set. destruct (ta_index i); [apply is_stores_ta_store | apply is_stores_id].
Qed.

Lemma is_stores_copyVertexEntry (source : list F) i faceEntry :
  is_stores (copyVertexEntry source i faceEntry).
Proof.
  unfold copyVertexEntry.
  repeat (apply is_stores_compose with (g2 := fun b => ta_store b _ _);
          [|apply is_stores_ta_store]).
  apply is_stores_id.
Qed.

Lemma is_stores_copyTexCoordEntry (source : list F) i faceEntry :
  is_stores (copyTexCoordEntry source i faceEntry).
Proof.
  unfold copyTexCoordEntry.
  repeat (apply is_stores_compose with (g2 := fun b => ta_store b _ _);
          [|apply is_stores_ta_store]).
  apply is_stores_id.
Qed.

Lemma forEachEntry_stores body face :
  (forall i faceEntry, is_stores (body i faceEntry)) ->
  forall i, exists ws, forall buf : list F,
    forEachEntry body face i buf = ((i + length face)%nat, stores ws buf).
Proof.
  intros Hbody. induction face as [|faceEntry face IH]; intros i.
  - exists []. intros buf. simpl. f_equal. lia.
  - destruct (Hbody i faceEntry) as [ws1 H1]. destruct (IH (S i)) as [ws2 H2].
    exists (ws1 ++ ws2). intros buf. simpl. rewrite H2, H1, stores_app.
    f_equal. lia.
Qed.

Lemma is_stores_forEachCorner body faces i :
  (forall i faceEntry, is_stores (body i faceEntry)) ->
  is_stores (forEachCorner (F:=F) body faces i).
Proof.
  intros Hbody. revert i. induction faces as [|face faces IH]; intros i.
  - apply is_stores_id.
  - destruct (forEachEntry_stores body face Hbody i) as [ws1 H1].
    destruct (IH (i + length face)%nat) as [ws2 H2].
    exists (ws1 ++ ws2). intros buf. simpl. by rewrite H1, H2, stores_app.
Qed.

Lemma is_stores_recalcVertexNormals (faceNormals faceAreas : list F) connectedFaces :
  is_stores (recalcVertexNormals faceNormals faceAreas connectedFaces).
Proof.
  unfold recalcVertexNormals. apply is_stores_fold. intros entry.
  unfold recalcVertexNormal.
  destruct (vertexNormal faceNormals faceAreas entry.2) as [[vnx vny] vnz].
  repeat (apply is_stores_compose with (g2 := fun b => ta_set b _ _);
          [|apply is_stores_ta_set]).
  apply is_stores_id.
Qed.

(** The first loop either throws whatever the buffers hold, or stores fixed
    values at fixed places of each buffer. *)
Lemma recalcFaceNormals_stores (vertices : list F) faces faceIndex :
  (forall faceNormals faceAreas,
      recalcFaceNormals vertices faces faceIndex faceNormals faceAreas = Throw) \/
  (exists wsn wsa, forall faceNormals faceAreas,
      recalcFaceNormals vertices faces faceIndex faceNormals faceAreas =
      Normal (stores wsn faceNormals, stores wsa faceAreas)).
Proof.
  revert faceIndex. induction faces as [|face faces IH]; intros faceIndex.
  - right. by exists [], [].
  - cbn [recalcFaceNormals].
    destruct (cornerVertex face 0) as [v0|]; [|by left].
    destruct (cornerVertex face 1) as [v1|]; [|by left].
    destruct (cornerVertex face 2) as [v2|]; [|by left].
    cbn [cbind]. destruct (faceGeometry vertices v0 v1 v2) as [[[xn yn] zn] area].
    destruct (IH (S faceIndex)) as [Hthrow | (wsn & wsa & Hok)].
    + left. intros. apply Hthrow.
    + right.
      exists ([((faceIndex * 3 + 0)%nat, fround xn); ((faceIndex * 3 + 1)%nat, fround yn);
               ((faceIndex * 3 + 2)%nat, fround zn)] ++ wsn),
             ([(faceIndex, fround area)] ++ wsa).
      intros. rewrite Hok, !stores_app. done.
Qed.
End MeshFacts.

Section Recompute.
Context {F : Type} `{Float64 F}.

Lemma cornerVertex_Normal (face : Face) k :
  (k < length face)%nat -> exists v, cornerVertex face k = Normal v.
Proof.
  intros Hk. unfold cornerVertex.
  destruct (face !! k) eqn:E; [eauto|].
  apply lookup_ge_None in E. lia.
Qed.


Lemma recalcFaceNormals_total (vertices : list F) faces :
  three_corners faces ->
  forall faceIndex faceNormals faceAreas,
    exists fs, recalcFaceNormals vertices faces faceIndex faceNormals faceAreas = Normal fs.
Proof.
  induction 1 as [|face faces Hface _ IH]; intros faceIndex faceNormals faceAreas.
  - simpl. eauto.
  - cbn [recalcFaceNormals].
    destruct (cornerVertex_Normal face 0) as [v0 ->]; [lia|].
    destruct (cornerVertex_Normal face 1) as [v1 ->]; [lia|].
    destruct (cornerVertex_Normal face 2) as [v2 ->]; [lia|].
    cbn [cbind]. destruct (faceGeometry vertices v0 v1 v2) as [[[xn yn] zn] area].
    apply IH.
Qed.

Lemma recalcFaceNormals_three_corners (vertices : list F) faces :
  forall faceIndex faceNormals faceAreas fs,
    recalcFaceNormals vertices faces faceIndex faceNormals faceAreas = Normal fs ->
    three_corners faces.
Proof.
  induction faces as [|face faces IH]; intros faceIndex faceNormals faceAreas fs;
    [constructor|].
  cbn [recalcFaceNormals].
  destruct (cornerVertex face 0) as [v0|]; [|done].
  destruct (cornerVertex face 1) as [v1|]; [|done].
  destruct (cornerVertex face 2) as [v2|] eqn:E2; [|done].
  cbn [cbind]. destruct (faceGeometry vertices v0 v1 v2) as [[[xn yn] zn] area].
  intros Hrest. constructor; [|by eapply IH].
  unfold cornerVertex in E2. destruct (face !! 2%nat) eqn:E; [|done].
  apply lookup_lt_Some in E. lia.
Qed.

Lemma recalcFaceNormals_length (vertices : list F) faces faceIndex faceNormals faceAreas fs :
  recalcFaceNormals vertices faces faceIndex faceNormals faceAreas = Normal fs ->
  length fs.1 = length faceNormals /\ length fs.2 = length faceAreas.
Proof.
  destruct (recalcFaceNormals_stores vertices faces faceIndex) as [Ht | (wsn & wsa & Hok)].
  - by rewrite Ht.
  - rewrite Hok. intros [= <-]. simpl. by rewrite !length_stores.
Qed.

Lemma markNormal_idempotent g : markNormal (markNormal g) = markNormal g.
Proof. by destruct g. Qed.

Lemma recalcNormals_total (s : TetFile F) :
  three_corners (faces s) -> exists s', recalcNormals s = Normal s'.
Proof.
  intros Hwf. unfold recalcNormals.
  destruct (recalcFaceNormals_total (vertices s) (faces s) Hwf 0%nat
              (faceNormals s) (faceAreas s)) as [fs ->].
  cbn [cbind]. eauto.
Qed.

(** [recalcNormals] returns exactly on the meshes whose faces have their three
    corners. *)
Lemma recalcNormals_three_corners (s s' : TetFile F) :
  recalcNormals s = Normal s' -> three_corners (faces s).
Proof.
  unfold recalcNormals.
  destruct (recalcFaceNormals (vertices s) (faces s) 0 (faceNormals s) (faceAreas s))
    as [fs|] eqn:E; [|done].
  intros _. by eapply recalcFaceNormals_three_corners.
Qed.

Lemma recalcNormals_shape (s s' : TetFile F) :
  recalcNormals s = Normal s' -> same_shape s s'.
Proof.
  unfold recalcNormals.
  destruct (recalcFaceNormals (vertices s) (faces s) 0 (faceNormals s) (faceAreas s))
    as [fs|] eqn:E; [|done].
  cbn [cbind]. intros [= <-]. apply recalcFaceNormals_length in E as [E1 E2].
  unfold same_shape. simpl_fields.
  rewrite (is_stores_length _ _ (is_stores_recalcVertexNormals _ _ _)).
  rewrite (is_stores_length _ _
             (is_stores_forEachCorner _ _ _ (is_stores_copyVertexEntry _))).
  tauto.
Qed.

Lemma copyDataToBuffer_shape (s : TetFile F) : same_shape s (copyDataToBuffer s).
Proof.
  unfold same_shape, copyDataToBuffer. simpl_fields.
  rewrite (is_stores_length _ _
             (is_stores_forEachCorner _ _ _ (is_stores_copyVertexEntry _))).
  tauto.
Qed.

Lemma setGeometry_shape (s : TetFile F) g : same_shape s (setGeometry s g).
Proof. unfold same_shape. cbn. tauto. Qed.

Lemma same_shape_trans (s1 s2 s3 : TetFile F) :
  same_shape s1 s2 -> same_shape s2 s3 -> same_shape s1 s3.
Proof. unfold same_shape. intuition congruence. Qed.

(** ** C7: recalcNormals is idempotent *)

(** C7.  On every mesh whose faces have their three corners, [recalcNormals]
    returns, and on the mesh it returns it returns that same mesh again:
    with unchanged positions a second call leaves the face normals, the face
    areas, the vertex normals and the per-corner normals (and every other
    field) exactly as the first call left them. *)
Theorem recalcNormals_idempotent (s : TetFile F) :
  three_corners (faces s) ->
  exists s', recalcNormals s = Normal s' /\
             vertices s' = vertices s /\
             recalcNormals s' = Normal s'.
Proof.
  intros Hwf. destruct (recalcNormals_total s Hwf) as [s' Hs'].
  exists s'. split; [done|]. split; [apply (recalcNormals_shape _ _ Hs')|].
  revert Hs'. unfold recalcNormals.
  destruct (recalcFaceNormals_stores (vertices s) (faces s) 0) as [Ht | (wsn & wsa & Hok)].
  { by rewrite Ht. }
  rewrite Hok. simpl_fields. intros [= <-]. simpl_fields.
  rewrite Hok. simpl_fields.
  rewrite !stores_idempotent, markNormal_idempotent.
  rewrite (is_stores_idempotent _ _ (is_stores_recalcVertexNormals _ _ _)).
  rewrite (is_stores_idempotent _ _
             (is_stores_forEachCorner _ _ _ (is_stores_copyVertexEntry _))).
  done.
Qed.

End Recompute.

(** ** What the parser builds *)

Lemma parseCorner_nonempty token : parseCorner token <> [].
Proof.
  unfold parseCorner. pose proof (split_nonempty "/" token).
  destruct (split "/" token); [done | discriminate].
Qed.

Lemma parseFace_spec values n :
  forall i face face',
    parseFace values i n face = Normal face' ->
    exists new, face' = face ++ new /\ length new = n /\
                Forall (fun corner : Corner => corner <> []) new.
Proof.
  induction n as [|n IH]; intros i face face'; cbn [parseFace].
  - intros [= <-]. exists []. by rewrite app_nil_r.
  - destruct (values !! (1 + i)%nat) as [token|]; [|done].
    intros (new & -> & <- & Hnew)%IH.
    exists (parseCorner token :: new). rewrite <- app_assoc. split; [done|].
    split; [done|]. constructor; [apply parseCorner_nonempty | done].
Qed.

Lemma triangle_three_corners faces : Forall triangle faces -> three_corners faces.
Proof.
  intros Hall. eapply Forall_impl; [exact Hall|]. intros face [Hlen _].
  cbn beta. lia.
Qed.

Section ParserInvariant.
Context {F : Type} `{Float64 F}.

Lemma parseDirective_ok (result result' : ParsedTetFile F) values :
  parsed_ok result -> parseDirective result values = Normal result' ->
  parsed_ok result'.
Proof.
  intros Hok. pose proof Hok as [Hfaces [k Hk]]. unfold parseDirective.
  destruct (values !! 0%nat) as [directive|]; [|by intros [= <-]].
  destruct (String.eqb directive "v").
  { intros [= <-]. split; [done|]. exists (S k). cbn.
    rewrite length_app, Hk. simpl. lia. }
  destruct (String.eqb directive "vt").
  { intros [= <-]. split; [done|]. by exists k. }
  destruct (String.eqb directive "f").
  { destruct (parseFace values 0 3 []) as [face|] eqn:E; [|done].
    cbn [cbind]. intros [= <-]. split; [|by exists k]. cbn.
    apply Forall_app. split; [done|]. constructor; [|done].
    apply parseFace_spec in E as (new & -> & Hlen & Hnew). by split. }
  destruct (String.eqb directive "t").
  { intros [= <-]. split; [done|]. by exists k. }
  by intros [= <-].
Qed.

Lemma parseLine_ok (result result' : ParsedTetFile F) line :
  parsed_ok result -> parseLine result line = Normal result' -> parsed_ok result'.
Proof.
  intros Hok. unfold parseLine.
  destruct (startsWith (trim line) "#"); [by intros [= <-]|].
  destruct (length (split " " (trim line)) <? 1)%nat; [by intros [= <-]|].
  by apply parseDirective_ok.
Qed.

Lemma forEach_line_ok lines :
  forall result result' : ParsedTetFile F,
    parsed_ok result -> forEach_line lines result = Normal result' ->
    parsed_ok result'.
Proof.
  induction lines as [|line lines IH]; intros result result' Hok; cbn [forEach_line].
  - by intros [= <-].
  - destruct (parseLine result line) as [r|] eqn:E; [|done].
    cbn [cbind]. apply IH. by eapply parseLine_ok.
Qed.

Lemma parseTetFile_ok text (tet : ParsedTetFile F) :
  parseTetFile text = Normal tet -> parsed_ok tet.
Proof.
  apply forEach_line_ok. split; [constructor | by exists 0%nat].
Qed.
End ParserInvariant.

(** ** The adjacency build *)

Lemma Map_get_set m k v k' :
  Map_get (Map_set m k v) k' = if decide (k = k') then Some v else Map_get m k'.
Proof.
  induction m as [|[k0 v0] m IH]; simpl.
  - destruct (decide (k = k')); done.
  - destruct (decide (k0 = k)) as [->|Hne]; simpl.
    + destruct (decide (k = k')); done.
    + destruct (decide (k0 = k')) as [->|Hne'].
      * destruct (decide (k = k')); [congruence | done].
      * done.
Qed.

Lemma Map_set_keys m k v x :
  x ∈ (Map_set m k v).*1 <-> x = k \/ x ∈ m.*1.
Proof.
  induction m as [|[k0 v0] m IH]; simpl.
  - rewrite list_elem_of_singleton, elem_of_nil. tauto.
  - destruct (decide (k0 = k)) as [->|Hne]; simpl; rewrite !elem_of_cons.
    + tauto.
    + rewrite IH. tauto.
Qed.

(** The keys of a Map stay distinct. *)
Lemma Map_set_NoDup m k v : NoDup m.*1 -> NoDup (Map_set m k v).*1.
Proof.
  induction m as [|[k0 v0] m IH]; simpl; intros Hnd.
  - apply NoDup_singleton.
  - apply NoDup_cons in Hnd as [Hnotin Hnd].
    destruct (decide (k0 = k)) as [->|Hne]; simpl.
    + by apply NoDup_cons.
    + apply NoDup_cons. split; [|by apply IH].
      rewrite Map_set_keys. intros [?|?]; done.
Qed.

Lemma connectFace_NoDup (face : Face) f n :
  forall k m m', NoDup m.*1 -> connectFace face f k n m = Normal m' -> NoDup m'.*1.
Proof.
  induction n as [|n IH]; intros k m m' Hnd; cbn [connectFace].
  - by intros [= <-].
  - destruct (cornerVertex face k) as [v|]; [|done]. cbn [cbind].
    apply IH. by apply Map_set_NoDup.
Qed.

Lemma fillConnectedFaces_NoDup faces :
  forall faceIndex m m',
    NoDup m.*1 -> fillConnectedFaces faces faceIndex m = Normal m' -> NoDup m'.*1.
Proof.
  induction faces as [|face faces IH]; intros faceIndex m m' Hnd;
    cbn [fillConnectedFaces].
  - by intros [= <-].
  - destruct (connectFace face faceIndex 0 3 m) as [m1|] eqn:E; [|done]. cbn [cbind].
    apply IH. by eapply connectFace_NoDup.
Qed.

Lemma includes_elem_of connections faceIndex :
  includes connections faceIndex = true <-> faceIndex ∈ connections.
Proof.
  unfold includes. rewrite existsb_exists, list_elem_of_In. split.
  - intros (x & Hin & ->%Nat.eqb_eq). done.
  - intros Hin. exists faceIndex. by rewrite Nat.eqb_refl.
Qed.

Lemma adjacency_of_ext (S S' : JSValue -> nat -> Prop) m :
  (forall v f, S v f <-> S' v f) -> adjacency_of S m -> adjacency_of S' m.
Proof.
  intros Hext Hadj v. specialize (Hadj v).
  destruct (Map_get m v) as [l|].
  - destruct Hadj as (? & ? & Hl). repeat split; try done.
    + intros ?. apply Hext, Hl. done.
    + intros ?. apply Hl, Hext. done.
  - intros f ?. apply (Hadj f). by apply Hext.
Qed.

Lemma connect_adjacency (S : JSValue -> nat -> Prop) m v f :
  adjacency_of S m ->
  adjacency_of (fun v' f' => S v' f' \/ (v' = v /\ f' = f)) (connect m v f).
Proof.
  intros Hadj v'. unfold connect. rewrite Map_get_set.
  destruct (decide (v = v')) as [<-|Hne].
  - specialize (Hadj v). destruct (Map_get m v) as [l|].
    + change (default [] (Some l)) with l.
      destruct Hadj as (Hl & Hnd & Hin).
      destruct (includes l f) eqn:E.
      * apply includes_elem_of in E. repeat split; cbv beta; try done.
        -- intros ?. left. by apply Hin.
        -- intros [?|[_ ->]]; [by apply Hin | done].
      * assert (f ∉ l) as Hnotin.
        { intros Hf%includes_elem_of. congruence. }
        repeat split; cbv beta.
        -- by destruct l.
        -- apply NoDup_app. repeat split; [done| |apply NoDup_singleton].
           intros x Hx ->%list_elem_of_singleton. done.
        -- intros [?|Hf]%elem_of_app; [left; by apply Hin|].
           apply list_elem_of_singleton in Hf as ->. by right.
        -- intros [?|[_ ->]]; apply elem_of_app; [left; by apply Hin | right].
           by apply list_elem_of_singleton.
    + simpl. repeat split; cbv beta.
      * done.
      * apply NoDup_singleton.
      * intros ->%list_elem_of_singleton. by right.
      * intros [?|[_ ->]]; [by destruct (Hadj f0) | by apply list_elem_of_singleton].
  - specialize (Hadj v'). destruct (Map_get m v') as [l|].
    + destruct Hadj as (Hl & Hnd & Hin). repeat split; cbv beta; try done.
      * intros ?. left. by apply Hin.
      * intros [?|[? _]]; [by apply Hin | congruence].
    + cbv beta. intros f' [?|[? _]]; [by apply (Hadj f') | congruence].
Qed.

Lemma connectFace_adjacency (face : Face) f n :
  forall k m (S : JSValue -> nat -> Prop),
    adjacency_of S m -> (k + n <= length face)%nat ->
    exists m', connectFace face f k n m = Normal m' /\
      adjacency_of
        (fun v f' => S v f' \/
           (f' = f /\ exists j, (k <= j < k + n)%nat /\ cornerVertex face j = Normal v))
        m'.
Proof.
  induction n as [|n IH]; intros k m S Hadj Hlen; cbn [connectFace].
  - exists m. split; [done|]. eapply adjacency_of_ext; [|exact Hadj].
    intros v f'. split; [tauto|]. intros [?|[_ (j & ? & _)]]; [done | lia].
  - destruct (cornerVertex_Normal face k) as [v Hv]; [lia|]. rewrite Hv. cbn [cbind].
    destruct (IH (Datatypes.S k) (connect m v f)
                 (fun v' f' => S v' f' \/ (v' = v /\ f' = f)))
      as (m' & -> & Hadj'); [by apply connect_adjacency | lia |].
    exists m'. split; [done|]. eapply adjacency_of_ext; [|exact Hadj'].
    intros v' f'. split.
    + intros [[?|[-> ->]] | [-> (j & ? & ?)]].
      * by left.
      * right. split; [done|]. exists k. split; [lia | done].
      * right. split; [done|]. exists j. split; [lia | done].
    + intros [? | [-> (j & Hj & Hjv)]]; [by left; left|].
      destruct (decide (j = k)) as [->|Hne].
      * left. right. split; [congruence | done].
      * right. split; [done|]. exists j. split; [lia | done].
Qed.

Lemma fillConnectedFaces_adjacency faces :
  three_corners faces ->
  forall faceIndex m (S : JSValue -> nat -> Prop),
    adjacency_of S m ->
    exists m', fillConnectedFaces faces faceIndex m = Normal m' /\
      adjacency_of
        (fun v f => S v f \/
           exists i face j, faces !! i = Some face /\ f = (faceIndex + i)%nat /\
                            (j < 3)%nat /\ cornerVertex face j = Normal v)
        m'.
Proof.
  induction 1 as [|face faces Hface _ IH]; intros faceIndex m S Hadj;
    cbn [fillConnectedFaces].
  - exists m. split; [done|]. eapply adjacency_of_ext; [|exact Hadj].
    intros v f. split; [tauto|]. intros [?|(i & face & j & Hi & _)]; [done|].
    by rewrite lookup_nil in Hi.
  - destruct (connectFace_adjacency face faceIndex 3 0 m S Hadj) as (m1 & -> & Hadj1);
      [simpl; lia|].
    cbn [cbind].
    destruct (IH (Datatypes.S faceIndex) m1 _ Hadj1) as (m' & -> & Hadj').
    exists m'. split; [done|]. eapply adjacency_of_ext; [|exact Hadj'].
    intros v f. split.
    + intros [[?|[-> (j & ? & ?)]] | (i & face' & j & Hi & -> & ? & ?)].
      * by left.
      * right. exists 0%nat, face, j. repeat split; [lia | lia | done].
      * right. exists (Datatypes.S i), face', j. repeat split; [done | lia | done | done].
    + intros [?|(i & face' & j & Hi & -> & ? & ?)]; [by left; left|].
      destruct i as [|i]; simpl in Hi.
      * injection Hi as <-. left. right. split; [lia|]. exists j. split; [lia | done].
      * right. exists i, face', j. repeat split; [done | lia | done | done].
Qed.

Lemma triangle_incident (face : Face) v :
  triangle face ->
  (exists j, (j < 3)%nat /\ cornerVertex face j = Normal v) <->
  (exists corner : Corner, corner ∈ face /\ corner !! 0%nat = v).
Proof.
  intros [Hlen _]. split.
  - intros (j & Hj & Hv). unfold cornerVertex in Hv.
    destruct (face !! j) as [corner|] eqn:E; [|done].
    exists corner. split; [by eapply list_elem_of_lookup_2 | congruence].
  - intros (corner & [j Hj]%list_elem_of_lookup_1 & Hv).
    exists j. split; [apply lookup_lt_Some in Hj; lia|].
    unfold cornerVertex. rewrite Hj. by rewrite Hv.
Qed.

(** The adjacency build on the faces of a parsed file. *)
Lemma fillConnectedFaces_incident faces :
  Forall triangle faces ->
  exists m, fillConnectedFaces faces 0 [] = Normal m /\ adjacency_of (incident faces) m.
Proof.
  intros Htri.
  destruct (fillConnectedFaces_adjacency faces (triangle_three_corners _ Htri) 0%nat []
              (fun _ _ => False)) as (m & Hm & Hadj).
  { intros v. simpl. tauto. }
  exists m. split; [done|]. eapply adjacency_of_ext; [|exact Hadj].
  intros v f. unfold incident. split.
  - intros [[]|(i & face & j & Hi & -> & Hj & Hv)].
    assert (triangle face) as Hface.
    { eapply Forall_forall; [exact Htri|]. by eapply list_elem_of_lookup_2. }
    destruct (proj1 (triangle_incident face v Hface)) as (corner & ? & ?); [eauto|].
    exists face, corner. done.
  - intros (face & corner & Hf & Hin & Hv). right.
    assert (triangle face) as Hface.
    { eapply Forall_forall; [exact Htri|]. by eapply list_elem_of_lookup_2. }
    destruct (proj2 (triangle_incident face v Hface)) as (j & ? & ?); [eauto|].
    exists f, face, j. done.
Qed.

(** ** Loader.loadTet *)

Section Load.
Context {F : Type} `{Float64 F}.

Lemma length_new_Float32Array n : length (new_Float32Array (F:=F) n) = n.
Proof. apply length_replicate. Qed.

Lemma buildMesh_spec (tet : ParsedTetFile F) :
  parsed_ok tet ->
  exists mesh, buildMesh tet = Normal mesh /\
    faces mesh = Parsed.faces tet /\
    vertices mesh = map fround (Parsed.vertices tet) /\
    triangleCount mesh = length (Parsed.faces tet) /\
    geometry mesh = None /\
    adjacency_of (incident (faces mesh)) (connectedFaces mesh) /\
    length (normals mesh) = (length (vertices mesh) * 3)%nat /\
    length (faceNormals mesh) = (length (faces mesh) * 3)%nat /\
    length (faceAreas mesh) = length (faces mesh) /\
    length (verticesPositions mesh) = (length (faces mesh) * 3 * 3)%nat /\
    length (verticesTexCoords mesh) = (length (faces mesh) * 3 * 2)%nat /\
    length (verticesNormals mesh) = (length (faces mesh) * 3 * 3)%nat.
Proof.
  intros [Htri _]. unfold buildMesh.
  destruct (fillConnectedFaces_incident _ Htri) as (m & -> & Hadj).
  cbn [cbind]. eexists. split; [reflexivity|]. simpl_fields.
  rewrite !length_new_Float32Array.
  rewrite (is_stores_length _ _
             (is_stores_forEachCorner _ _ _ (is_stores_copyTexCoordEntry _))).
  rewrite length_new_Float32Array. done.
Qed.

(** Once the text is parsed, the load runs to its end. *)
Lemma loadTet_spec text (tet : ParsedTetFile F) :
  parseTetFile text = Normal tet ->
  exists mesh s1,
    buildMesh tet = Normal mesh /\ recalcNormals mesh = Normal s1 /\
    loadTet text = Normal (setGeometry (copyDataToBuffer s1) new_BufferGeometry).
Proof.
  intros Hparse. pose proof (parseTetFile_ok _ _ Hparse) as Hok.
  destruct (buildMesh_spec tet Hok) as (mesh & Hmesh & Hfaces & _).
  destruct (recalcNormals_total mesh) as [s1 Hs1].
  { rewrite Hfaces. apply triangle_three_corners, Hok. }
  exists mesh, s1. split; [done|]. split; [done|].
  unfold loadTet. rewrite Hparse. cbn [cbind]. rewrite Hmesh. cbn [cbind].
  rewrite Hs1. done.
Qed.

Lemma loadTet_inv text (s : TetFile F) :
  loadTet text = Normal s ->
  exists tet mesh,
    parseTetFile text = Normal tet /\ buildMesh tet = Normal mesh /\
    same_shape mesh s.
Proof.
  unfold loadTet.
  destruct (parseTetFile text) as [tet|] eqn:Hparse; [|done]. cbn [cbind].
  destruct (buildMesh tet) as [mesh|] eqn:Hmesh; [|done]. cbn [cbind].
  destruct (recalcNormals mesh) as [s1|] eqn:Hs1; [|done]. cbn [cbind].
  intros [= <-]. exists tet, mesh. split; [done|]. split; [done|].
  eapply same_shape_trans; [by apply recalcNormals_shape|].
  eapply same_shape_trans; [apply copyDataToBuffer_shape | apply setGeometry_shape].
Qed.

(** The mesh a load returns, against the parsed file. *)
Lemma loadTet_shape text (s : TetFile F) :
  loadTet text = Normal s ->
  exists tet,
    parseTetFile text = Normal tet /\ parsed_ok tet /\
    faces s = Parsed.faces tet /\
    vertices s = map fround (Parsed.vertices tet) /\
    adjacency_of (incident (faces s)) (connectedFaces s) /\
    length (normals s) = (length (vertices s) * 3)%nat /\
    length (faceNormals s) = (length (faces s) * 3)%nat /\
    length (faceAreas s) = length (faces s) /\
    length (verticesPositions s) = (length (faces s) * 3 * 3)%nat /\
    length (verticesTexCoords s) = (length (faces s) * 3 * 2)%nat /\
    length (verticesNormals s) = (length (faces s) * 3 * 3)%nat.
Proof.
  intros (tet & mesh & Hparse & Hmesh & Hshape)%loadTet_inv.
  pose proof (parseTetFile_ok _ _ Hparse) as Hok.
  destruct (buildMesh_spec tet Hok) as (mesh' & Hmesh' & Hb).
  rewrite Hmesh in Hmesh'. injection Hmesh' as <-.
  exists tet. split; [done|]. split; [done|].
  unfold same_shape in Hshape.
  destruct Hshape as (-> & _ & _ & -> & -> & _ & -> & -> & -> & -> & -> & ->).
  tauto.
Qed.

(** ** C3: the per-corner buffers have three entries per face *)

(** C3.  A text the parser accepts loads, and in the mesh the position,
    texture-coordinate and normal buffers hold 3, 2 and 3 floats for each of
    3 x faceCount entries; [recalcNormals] and [copyDataToBuffer] keep the
    faces and the length of each of the three buffers, on every mesh. *)
Theorem per_corner_buffers_length text (tet : ParsedTetFile F) :
  parseTetFile text = Normal tet ->
  (exists s, loadTet text = Normal s /\
     faces s = Parsed.faces tet /\
     length (verticesPositions s) = (3 * (3 * length (faces s)))%nat /\
     length (verticesTexCoords s) = (2 * (3 * length (faces s)))%nat /\
     length (verticesNormals s) = (3 * (3 * length (faces s)))%nat) /\
  (forall s s' : TetFile F, recalcNormals s = Normal s' ->
     faces s' = faces s /\
     length (verticesPositions s') = length (verticesPositions s) /\
     length (verticesTexCoords s') = length (verticesTexCoords s) /\
     length (verticesNormals s') = length (verticesNormals s)) /\
  (forall s : TetFile F,
     faces (copyDataToBuffer s) = faces s /\
     length (verticesPositions (copyDataToBuffer s)) = length (verticesPositions s) /\
     length (verticesTexCoords (copyDataToBuffer s)) = length (verticesTexCoords s) /\
     length (verticesNormals (copyDataToBuffer s)) = length (verticesNormals s)).
Proof.
  intros Hparse. split; [|split].
  - destruct (loadTet_spec text tet Hparse) as (mesh & s1 & _ & _ & Hload).
    eexists. split; [exact Hload|].
    destruct (loadTet_shape _ _ Hload) as (tet' & Hparse' & _ & Hf & _ & _ & _ & _ & _ & Hp & Ht & Hn).
    rewrite Hparse in Hparse'. injection Hparse' as <-.
    split; [done|]. rewrite Hp, Ht, Hn. lia.
  - intros s s' Hs. apply recalcNormals_shape in Hs. unfold same_shape in Hs. tauto.
  - intros s. pose proof (copyDataToBuffer_shape s) as Hs. unfold same_shape in Hs. tauto.
Qed.

(** ** C6: the adjacency map *)

(** C6.  In a loaded mesh a vertex index has an entry in [connectedFaces]
    exactly when a corner of some face names it; the entry is not empty, has
    no face twice, and lists the faces that name the index. *)
Theorem adjacency_complete text (s : TetFile F) :
  loadTet text = Normal s ->
  forall vertexIndex : JSValue,
    ((exists faceIndex, incident (faces s) vertexIndex faceIndex) <->
     (exists connections, Map_get (connectedFaces s) vertexIndex = Some connections)) /\
    (forall connections,
        Map_get (connectedFaces s) vertexIndex = Some connections ->
        connections <> [] /\ NoDup connections /\
        forall faceIndex,
          faceIndex ∈ connections <-> incident (faces s) vertexIndex faceIndex).
Proof.
  intros (tet & _ & _ & _ & _ & Hadj & _)%loadTet_shape vertexIndex.
  specialize (Hadj vertexIndex).
  destruct (Map_get (connectedFaces s) vertexIndex) as [l|].
  - destruct Hadj as (Hne & Hnd & Hin). split.
    + split; [eauto|]. intros _. destruct l as [|f l]; [done|].
      exists f. apply Hin. by left.
    + by intros ? [= <-].
  - split; [|done]. split.
    + intros [f Hf]. by destruct (Hadj f).
    + by intros [? ?].
Qed.

(** ** C4: the per-vertex normal buffer *)

(** C4, as the code has it.  The buffer of vertex normals of a loaded mesh
    has three floats for each float of the vertex buffer, that is 9 x
    vertexCount floats, not 3 x vertexCount. *)
Theorem normals_buffer_length text (s : TetFile F) :
  loadTet text = Normal s ->
  length (vertices s) = (3 * vertexCount s)%nat /\
  length (normals s) = (9 * vertexCount s)%nat.
Proof.
  intros (tet & _ & [_ [k Hk]] & _ & Hv & _ & Hn & _)%loadTet_shape.
  assert (length (vertices s) = (3 * k)%nat) as Hlen.
  { by rewrite Hv, length_map. }
  unfold vertexCount. rewrite Hn, Hlen.
  replace (3 * k)%nat with (k * 3)%nat by lia.
  rewrite Nat.div_mul by done. lia.
Qed.
End Load.

(** ** The first loop: face normals and areas *)

Section FaceLoop.
Context {F : Type} `{Float64 F}.

(** The loop from face [faceIndex] on leaves the slots of earlier faces. *)
Lemma recalcFaceNormals_frame (vertices : list F) faces :
  forall faceIndex faceNormals faceAreas fs,
    recalcFaceNormals vertices faces faceIndex faceNormals faceAreas = Normal fs ->
    (forall j, (j < faceIndex * 3)%nat -> fs.1 !! j = faceNormals !! j) /\
    (forall j, (j < faceIndex)%nat -> fs.2 !! j = faceAreas !! j).
Proof.
  induction faces as [|face faces IH]; intros faceIndex faceNormals faceAreas fs;
    cbn [recalcFaceNormals].
  - by intros [= <-].
  - destruct (cornerVertex face 0) as [v0|]; [|done].
    destruct (cornerVertex face 1) as [v1|]; [|done].
    destruct (cornerVertex face 2) as [v2|]; [|done].
    cbn [cbind]. destruct (faceGeometry vertices v0 v1 v2) as [[[xn yn] zn] area].
    intros [Hn Ha]%IH. split.
    + intros j Hj. rewrite Hn by lia. unfold ta_store.
      rewrite !list_lookup_insert_ne by lia. done.
    + intros j Hj. rewrite Ha by lia. unfold ta_store.
      rewrite list_lookup_insert_ne by lia. done.
Qed.

(** What the loop leaves in the slots of the face at place [i]. *)
Lemma recalcFaceNormals_lookup (vertices : list F) faces :
  forall faceIndex faceNormals faceAreas fs i face,
    recalcFaceNormals vertices faces faceIndex faceNormals faceAreas = Normal fs ->
    faces !! i = Some face ->
    ((faceIndex + i) * 3 + 2 < length faceNormals)%nat ->
    (faceIndex + i < length faceAreas)%nat ->
    exists v0 v1 v2,
      cornerVertex face 0 = Normal v0 /\ cornerVertex face 1 = Normal v1 /\
      cornerVertex face 2 = Normal v2 /\
      let '(xn, yn, zn, area) := faceGeometry vertices v0 v1 v2 in
      fs.1 !! ((faceIndex + i) * 3 + 0)%nat = Some (fround xn) /\
      fs.1 !! ((faceIndex + i) * 3 + 1)%nat = Some (fround yn) /\
      fs.1 !! ((faceIndex + i) * 3 + 2)%nat = Some (fround zn) /\
      fs.2 !! (faceIndex + i)%nat = Some (fround area).
Proof.
  induction faces as [|face0 faces IH];
    intros faceIndex faceNormals faceAreas fs i face; [by rewrite lookup_nil|].
  cbn [recalcFaceNormals].
  destruct (cornerVertex face0 0) as [v0|] eqn:E0; [|done].
  destruct (cornerVertex face0 1) as [v1|] eqn:E1; [|done].
  destruct (cornerVertex face0 2) as [v2|] eqn:E2; [|done].
  cbn [cbind].
  destruct (faceGeometry vertices v0 v1 v2) as [[[xn yn] zn] area] eqn:Eg.
  intros Hloop Hface Hn Ha. destruct i as [|i]; simpl in Hface.
  - injection Hface as <-. exists v0, v1, v2. rewrite Eg.
    do 3 (split; [done|]).
    apply recalcFaceNormals_frame in Hloop as [Hfn Hfa].
    replace (faceIndex + 0)%nat with faceIndex in * by lia.
    rewrite !Hfn, Hfa by lia. unfold ta_store.
    repeat split;
      rewrite ?list_lookup_insert_ne by lia;
      apply list_lookup_insert_eq; rewrite ?length_insert; lia.
  - replace (faceIndex + S i)%nat with (S faceIndex + i)%nat in * by lia.
    eapply IH; [exact Hloop | exact Hface | |];
      unfold ta_store; rewrite ?length_insert; lia.
Qed.

(** The source's formulas are the specification's. *)
Lemma faceGeometry_spec (two : F) (vertices : list F) v0 v1 v2 :
  (forall x, (x * f_half)%fl = (x / two)%fl) ->
  faceGeometry vertices v0 v1 v2 =
  (spec_faceNormal (position vertices v0) (position vertices v1) (position vertices v2),
   spec_faceArea two (position vertices v0) (position vertices v1)
     (position vertices v2)).
Proof.
  intros Hhalf. unfold faceGeometry, faceNormalAndArea, coordinate.
  unfold spec_faceNormal, spec_faceArea, spec_heron, normalize, norm, vdiv, cross,
    vsub, position.
  cbv zeta. rewrite Hhalf. reflexivity.
Qed.

(** ** C2: the normal and the area of a face *)

(** C2.  On a mesh whose faces have three corners and whose face buffers
    have a slot for each face, [recalcNormals] stores, for every face with
    corner positions P0, P1, P2: in the three floats of the face the
    components of (P0-P1) x (P0-P2) divided by its Euclidean norm, and in
    the float of the face the area by Heron's formula with s = (a+b+c)/2
    over the three edge lengths; each value as a [Float32Array] holds it. *)
Theorem face_normal_and_area (two : F) (s : TetFile F) :
  (forall x, (x * f_half)%fl = (x / two)%fl) ->
  three_corners (faces s) ->
  length (faceNormals s) = (3 * length (faces s))%nat ->
  length (faceAreas s) = length (faces s) ->
  exists s', recalcNormals s = Normal s' /\
    forall faceIndex face,
      faces s !! faceIndex = Some face ->
      exists v0 v1 v2,
        cornerVertex face 0 = Normal v0 /\ cornerVertex face 1 = Normal v1 /\
        cornerVertex face 2 = Normal v2 /\
        let P0 := position (vertices s) v0 in
        let P1 := position (vertices s) v1 in
        let P2 := position (vertices s) v2 in
        let '(nx, ny, nz) := spec_faceNormal P0 P1 P2 in
        faceNormals s' !! (faceIndex * 3 + 0)%nat = Some (fround nx) /\
        faceNormals s' !! (faceIndex * 3 + 1)%nat = Some (fround ny) /\
        faceNormals s' !! (faceIndex * 3 + 2)%nat = Some (fround nz) /\
        faceAreas s' !! faceIndex = Some (fround (spec_faceArea two P0 P1 P2)).
Proof.
  intros Hhalf Hwf Hn Ha.
  destruct (recalcNormals_total s Hwf) as [s' Hs']. exists s'. split; [done|].
  intros faceIndex face Hface.
  revert Hs'. unfold recalcNormals.
  destruct (recalcFaceNormals (vertices s) (faces s) 0 (faceNormals s) (faceAreas s))
    as [fs|] eqn:Hloop; [|done].
  cbn [cbind]. intros [= <-]. simpl_fields.
  pose proof (lookup_lt_Some _ _ _ Hface) as Hlt.
  destruct (recalcFaceNormals_lookup _ _ _ _ _ _ _ _ Hloop Hface)
    as (v0 & v1 & v2 & E0 & E1 & E2 & Hslots); [simpl; lia | simpl; lia |].
  exists v0, v1, v2. do 3 (split; [done|]).
  rewrite (faceGeometry_spec two) in Hslots by done.
  cbv zeta.
  destruct (spec_faceNormal (position (vertices s) v0) (position (vertices s) v1)
              (position (vertices s) v2)) as [[nx ny] nz].
  exact Hslots.
Qed.
End FaceLoop.

(** ** The second loop: vertex normals *)

(** A rounded integer below 2^53 is the integer itself. *)
Lemma norm64_inv x w : norm64 x = Int w -> Z.abs w < 2 ^ 53 -> x = w.
Proof.
  unfold norm64.
  destruct (Z.leb_spec (Z.log2 (Z.abs x) - 52) 0) as [Hle|Hgt]; [congruence|].
  set (e := Z.log2 (Z.abs x) - 52) in *.
  set (q := Z.shiftr (Z.abs x) e).
  set (q' := if _ : bool then q + 1 else q).
  destruct (2 ^ 1024 <=? Z.shiftl q' e); [by destruct (x <? 0)|].
  intros [= <-] Habs. exfalso.
  assert (0 < Z.abs x) as Hpos.
  { destruct (Z.eq_dec (Z.abs x) 0) as [E|]; [|lia].
    unfold e in Hgt. rewrite E in Hgt. simpl in Hgt. lia. }
  assert (2 ^ (52 + e) <= Z.abs x) as Hlow.
  { replace (52 + e) with (Z.log2 (Z.abs x)) by (unfold e; lia).
    apply Z.log2_spec. done. }
  assert (2 ^ 52 <= q) as Hq.
  { unfold q. rewrite Z.shiftr_div_pow2 by lia.
    apply Z.div_le_lower_bound; [lia|].
    rewrite Z.pow_add_r in Hlow by lia. lia. }
  assert (q <= q') as Hq' by (unfold q'; destruct (_ : bool); lia).
  rewrite Z.shiftl_mul_pow2 in Habs by lia.
  assert (2 ^ 1 <= 2 ^ e) as He by (apply Z.pow_le_mono_r; lia).
  assert (2 ^ 53 <= q' * 2 ^ e) as Hbig.
  { change (2 ^ 53) with (2 ^ 52 * 2 ^ 1). apply Z.mul_le_mono_nonneg; lia. }
  assert (Z.abs (Z.sgn x) = 1) as Hsgn.
  { destruct x; simpl in *; lia. }
  rewrite Z.abs_mul, Hsgn in Habs.
  assert (0 <= q' * 2 ^ e) by lia. lia.
Qed.

(** The three floats of vertex [z] in a buffer of three floats a vertex. *)
Lemma flat_index_vertex z k :
  0 <= z -> 0 <= k < 3 -> 3 * z + 2 < 2 ^ 53 ->
  ta_index (flat_index (Some (Int z)) 3 k) = Some (Z.to_nat (3 * z + k)).
Proof.
  intros Hz Hk Hb. unfold flat_index, ToNumber, jmul, jadd.
  rewrite norm64_small by lia. rewrite norm64_small by lia.
  unfold ta_index.
  destruct (Z.leb_spec 0 (z * 3 + k)); [|lia].
  destruct (Z.ltb_spec (z * 3 + k) (2 ^ 53)); [|lia].
  simpl. do 2 f_equal. lia.
Qed.

(** No other vertex index designates one of these three floats. *)
Lemma flat_index_inj v' k' z k :
  0 <= z -> 0 <= k < 3 -> 0 <= k' < 3 ->
  ta_index (flat_index v' 3 k') = Some (Z.to_nat (3 * z + k)) ->
  v' = Some (Int z) /\ k' = k.
Proof.
  intros Hz Hk Hk'. unfold flat_index, ta_index.
  destruct (jadd (jmul (ToNumber v') 3) k') as [| | |w] eqn:Ew; try done.
  destruct (Z.leb_spec 0 w); [|done].
  destruct (Z.ltb_spec w (2 ^ 53)); [|done].
  simpl. intros [= Hw]. apply Z2Nat.inj in Hw; [|lia|lia]. subst w.
  destruct v' as [[| | |z']|]; try done. simpl in Ew.
  destruct (norm64 (z' * 3)) as [| | |y] eqn:Ey; try done. simpl in Ew.
  apply norm64_inv in Ew; [|lia].
  apply norm64_inv in Ey; [|lia].
  split; [do 2 f_equal; lia | lia].
Qed.

Section VertexLoop.
Context {F : Type} `{Float64 F}.

Lemma length_ta_set (buf : list F) i v : length (ta_set buf i v) = length buf.
Proof. apply (is_stores_length _ _ (is_stores_ta_set i v)). Qed.

Lemma length_recalcVertexNormal (fn fa normals : list F) entry :
  length (recalcVertexNormal fn fa normals entry) = length normals.
Proof.
  unfold recalcVertexNormal. cbv zeta. destruct (vertexNormal _ _ _) as [[x y] w].
  by rewrite !length_ta_set.
Qed.

Lemma ta_set_lookup_ne (buf : list F) i v n :
  ta_index i <> Some n -> ta_set buf i v !! n = buf !! n.
Proof.
  unfold ta_set, ta_store. destruct (ta_index i) as [m|]; [|done].
  intros Hne. apply list_lookup_insert_ne. congruence.
Qed.

Lemma ta_set_lookup_eq (buf : list F) i v n :
  ta_index i = Some n -> (n < length buf)%nat -> ta_set buf i v !! n = Some (fround v).
Proof.
  unfold ta_set, ta_store. intros -> Hn. by apply list_lookup_insert_eq.
Qed.

(** The entry of another vertex leaves the floats of vertex [z]. *)
Lemma recalcVertexNormal_other (fn fa normals : list F) entry z k :
  entry.1 <> Some (Int z) -> 0 <= z -> 0 <= k < 3 ->
  recalcVertexNormal fn fa normals entry !! Z.to_nat (3 * z + k) =
  normals !! Z.to_nat (3 * z + k).
Proof.
  intros Hne Hz Hk. unfold recalcVertexNormal.
  cbv zeta. destruct (vertexNormal _ _ _) as [[x y] w].
  rewrite !ta_set_lookup_ne; [done|..];
    intros [? _]%flat_index_inj; done || lia.
Qed.

(** The entry of vertex [z] fills its three floats. *)
Lemma recalcVertexNormal_self (fn fa normals : list F) l z :
  0 <= z -> 3 * z + 2 < 2 ^ 53 -> (Z.to_nat (3 * z + 2) < length normals)%nat ->
  let '(x, y, w) := vertexNormal fn fa l in
  recalcVertexNormal fn fa normals (Some (Int z), l) !! Z.to_nat (3 * z + 0) =
    Some (fround x) /\
  recalcVertexNormal fn fa normals (Some (Int z), l) !! Z.to_nat (3 * z + 1) =
    Some (fround y) /\
  recalcVertexNormal fn fa normals (Some (Int z), l) !! Z.to_nat (3 * z + 2) =
    Some (fround w).
Proof.
  intros Hz Hb Hlen. unfold recalcVertexNormal. cbn [fst snd]. cbv zeta.
  destruct (vertexNormal fn fa l) as [[x y] w].
  assert (forall k k', 0 <= k < 3 -> 0 <= k' < 3 -> k <> k' ->
            ta_index (flat_index (Some (Int z)) 3 k) <> Some (Z.to_nat (3 * z + k')))
    as Hne.
  { intros k k' Hk Hk' Hkk. rewrite flat_index_vertex by lia.
    intros [= E]. apply Z2Nat.inj in E; lia. }
  repeat split.
  - rewrite !ta_set_lookup_ne by (apply Hne; lia).
    apply ta_set_lookup_eq; [apply flat_index_vertex; lia | lia].
  - rewrite ta_set_lookup_ne by (apply Hne; lia).
    apply ta_set_lookup_eq; [apply flat_index_vertex; lia|].
    rewrite length_ta_set. lia.
  - apply ta_set_lookup_eq; [apply flat_index_vertex; lia|].
    rewrite !length_ta_set. lia.
Qed.

Lemma recalcVertexNormals_other (fn fa : list F) (m : JSMap) z k :
  Some (Int z) ∉ m.*1 -> 0 <= z -> 0 <= k < 3 ->
  forall normals,
    recalcVertexNormals fn fa m normals !! Z.to_nat (3 * z + k) =
    normals !! Z.to_nat (3 * z + k).
Proof.
  intros Hnotin Hz Hk. unfold recalcVertexNormals.
  induction m as [|entry m IH]; intros normals; simpl; [done|].
  rewrite IH.
  - apply recalcVertexNormal_other; [|done|done].
    intros E. apply Hnotin. rewrite <- E. simpl. by left.
  - intros Hin. apply Hnotin. simpl. by right.
Qed.

(** What the second loop leaves in the floats of a vertex with an entry. *)
Lemma recalcVertexNormals_lookup (fn fa : list F) (m : JSMap) z l :
  NoDup m.*1 -> Map_get m (Some (Int z)) = Some l ->
  0 <= z -> 3 * z + 2 < 2 ^ 53 ->
  forall normals,
    (Z.to_nat (3 * z + 2) < length normals)%nat ->
    let '(x, y, w) := vertexNormal fn fa l in
    recalcVertexNormals fn fa m normals !! Z.to_nat (3 * z + 0) = Some (fround x) /\
    recalcVertexNormals fn fa m normals !! Z.to_nat (3 * z + 1) = Some (fround y) /\
    recalcVertexNormals fn fa m normals !! Z.to_nat (3 * z + 2) = Some (fround w).
Proof.
  intros Hnd Hget Hz Hb.
  induction m as [|[k0 l0] m IH]; intros normals Hlen; [done|].
  simpl in Hget. apply NoDup_cons in Hnd as [Hnotin Hnd].
  change (recalcVertexNormals fn fa ((k0, l0) :: m) normals)
    with (recalcVertexNormals fn fa m (recalcVertexNormal fn fa normals (k0, l0))).
  destruct (decide (k0 = Some (Int z))) as [->|Hne].
  - injection Hget as ->.
    pose proof (recalcVertexNormal_self fn fa normals l z Hz Hb Hlen) as Hself.
    destruct (vertexNormal fn fa l) as [[x y] w].
    rewrite !recalcVertexNormals_other by (done || lia). exact Hself.
  - apply IH; [done|done|]. by rewrite length_recalcVertexNormal.
Qed.
End VertexLoop.

Section RecomputeParts.
Context {F : Type} `{Float64 F}.

(** The three loops of a call that returns. *)
Lemma recalcNormals_inv (s s' : TetFile F) :
  recalcNormals s = Normal s' ->
  recalcFaceNormals (vertices s) (faces s) 0 (faceNormals s) (faceAreas s) =
    Normal (faceNormals s', faceAreas s') /\
  normals s' =
    recalcVertexNormals (faceNormals s') (faceAreas s') (connectedFaces s) (normals s) /\
  verticesNormals s' =
    forEachCorner (copyVertexEntry (normals s')) (faces s) 0 (verticesNormals s).
Proof.
  unfold recalcNormals.
  destruct (recalcFaceNormals (vertices s) (faces s) 0 (faceNormals s) (faceAreas s))
    as [[fn fa]|]; [|done].
  simpl_fields. intros [= <-]. simpl_fields. done.
Qed.

(** What a call that returns leaves in the three floats of a vertex that has
    an entry in the Map: the value of lines 94-120 on the face normals and
    areas of that call. *)
Lemma recalcNormals_vertex_normal (s s' : TetFile F) z l :
  recalcNormals s = Normal s' ->
  NoDup (connectedFaces s).*1 ->
  Map_get (connectedFaces s) (Some (Int z)) = Some l ->
  0 <= z -> 3 * z + 2 < 2 ^ 53 -> (Z.to_nat (3 * z + 2) < length (normals s))%nat ->
  let '(x, y, w) := vertexNormal (faceNormals s') (faceAreas s') l in
  normals s' !! Z.to_nat (3 * z + 0) = Some (fround x) /\
  normals s' !! Z.to_nat (3 * z + 1) = Some (fround y) /\
  normals s' !! Z.to_nat (3 * z + 2) = Some (fround w).
Proof.
  intros (_ & -> & _)%recalcNormals_inv Hnd Hget Hz Hb Hlen.
  by apply recalcVertexNormals_lookup.
Qed.

(** The keys of the Map of a built mesh are distinct. *)
Lemma buildMesh_keys (tet : ParsedTetFile F) (mesh : TetFile F) :
  buildMesh tet = Normal mesh -> NoDup (connectedFaces mesh).*1.
Proof.
  unfold buildMesh.
  destruct (fillConnectedFaces (Parsed.faces tet) 0 []) as [m|] eqn:E; [|done].
  cbn [cbind]. intros [= <-]. simpl_fields.
  eapply fillConnectedFaces_NoDup; [|exact E]. constructor.
Qed.

(** The normal of a vertex with exactly two connected faces, as the source
    computes it: the sum of the two face normals, divided by the sum of the
    two areas and then by its own length. *)
Lemma vertexNormal_two_faces (fn fa : list F) f1 f2 :
  vertexNormal fn fa [f1; f2] =
  (let N1 := (num (fn !! (f1 * 3 + 0)%nat), num (fn !! (f1 * 3 + 1)%nat),
              num (fn !! (f1 * 3 + 2)%nat)) in
   let N2 := (num (fn !! (f2 * 3 + 0)%nat), num (fn !! (f2 * 3 + 1)%nat),
              num (fn !! (f2 * 3 + 2)%nat)) in
   let areaSum := (f_zero + num (fa !! f1) + num (fa !! f2))%fl in
   normalize (vdiv (vadd (vadd (f_zero, f_zero, f_zero) N1) N2) areaSum)).
Proof. reflexivity. Qed.
End RecomputeParts.


(** * Concrete runs *)

Import Ideal.

(** C8 fails as stated.  With tabs between the tokens the line is one token,
    no directive, and is skipped, while with single spaces it is a vertex;
    with two spaces after [v] the first coordinate is read from an empty
    token and is not a number. *)
Lemma whitespace_separation_counterexample :
  parseTetFile (F:=ideal) (joinWith tab ["v"; "1"; "2"; "3"]) <>
    parseTetFile (F:=ideal) (joinWith " " ["v"; "1"; "2"; "3"]) /\
  parseTetFile (F:=ideal) (joinWith "  " ["v"; "1"; "2"; "3"]) <>
    parseTetFile (F:=ideal) (joinWith " " ["v"; "1"; "2"; "3"]).
Proof.
  split; intros Heq.
  - apply (f_equal (fun c => match c with
                             | Normal p => length (Parsed.vertices p)
                             | Throw => 0%nat
                             end)) in Heq.
    vm_compute in Heq. discriminate.
  - apply (f_equal (fun c => match c with
                             | Normal p =>
                                 match Parsed.vertices p with
                                 | INaN :: _ => true
                                 | _ => false
                                 end
                             | Throw => false
                             end)) in Heq.
    vm_compute in Heq. discriminate.
Qed.

Lemma tokens_split_at_single_spaces_witness :
  (["v"; "1"; "2"; "3"] <> [] /\
   Forall (fun t => contains " " t = false) ["v"; "1"; "2"; "3"] /\
   trim (joinTokens ["v"; "1"; "2"; "3"]) = joinTokens ["v"; "1"; "2"; "3"] /\
   startsWith (joinTokens ["v"; "1"; "2"; "3"]) "#" = false) /\
  split " " (joinTokens ["v"; "1"; "2"; "3"]) = ["v"; "1"; "2"; "3"] /\
  parseLine (F:=ideal) empty_parsed (joinTokens ["v"; "1"; "2"; "3"]) =
    parseDirective empty_parsed ["v"; "1"; "2"; "3"] /\
  split " " (joinWith tab ["v"; "1"; "2"; "3"]) = [joinWith tab ["v"; "1"; "2"; "3"]] /\
  split " " (joinTokens ["v"] ++ "  " ++ joinTokens ["1"; "2"; "3"])%string =
    ["v"; ""; "1"; "2"; "3"].
Proof.
  assert (["v"; "1"; "2"; "3"] <> []) as H1 by discriminate.
  assert (Forall (fun t => contains " " t = false) ["v"; "1"; "2"; "3"]) as H2
    by (repeat constructor).
  assert (trim (joinTokens ["v"; "1"; "2"; "3"]) = joinTokens ["v"; "1"; "2"; "3"])
    as H3 by reflexivity.
  assert (startsWith (joinTokens ["v"; "1"; "2"; "3"]) "#" = false) as H4
    by reflexivity.
  split; [tauto|].
  destruct (tokens_split_at_single_spaces (F:=ideal) empty_parsed _ H1 H2 H3 H4)
    as (Hsplit & Hline & Htab & Hdouble).
  split; [exact Hsplit|]. split; [exact Hline|]. split; [exact Htab|].
  apply (Hdouble ["v"] ["1"; "2"; "3"]); [reflexivity | discriminate | discriminate].
Defined.

Lemma short_face_line_throws_witness :
  ("f 1/1 2/2" ∈ split_lines "v 0 0 0
f 1/1 2/2" /\
   split " " (trim "f 1/1 2/2") = "f" :: ["1/1"; "2/2"] /\
   (length ["1/1"; "2/2"] < 3)%nat) /\
  parseTetFile (F:=ideal) "v 0 0 0
f 1/1 2/2" = Throw.
Proof.
  assert ("f 1/1 2/2" ∈ split_lines "v 0 0 0
f 1/1 2/2") as H1 by (vm_compute; apply list_elem_of_In; simpl; tauto).
  assert (split " " (trim "f 1/1 2/2") = "f" :: ["1/1"; "2/2"]) as H2 by reflexivity.
  assert (length ["1/1"; "2/2"] < 3)%nat as H3 by (simpl; lia).
  split; [tauto|].
  exact (short_face_line_throws (F:=ideal) _ _ _ H1 H2 H3).
Defined.

Lemma index_conversion_witness :
  Forall (fun n => (n < 2 ^ 53)%N) [5; 2; 1; 1; 3; 4; 1; 2; 3; 1]%N /\
  parseCorner (cornerToken 5 2) = [Int 4; Int 1].
Proof.
  assert (Forall (fun n => (n < 2 ^ 53)%N) [5; 2; 1; 1; 3; 4; 1; 2; 3; 1]%N) as Hb
    by (repeat constructor).
  split; [exact Hb|].
  exact (proj1 (index_conversion (F:=ideal) empty_parsed 5 2 1 1 3 4 1 2 3 1 Hb)).
Defined.

(** A face that names vertex 0 in two corners is listed once for it. *)
Example repeated_vertex_connected_once :
  fillConnectedFaces [[[Int 0; Int 0]; [Int 0; Int 0]; [Int 1; Int 0]]] 0 [] =
  Normal [(Some (Int 0), [0%nat]); (Some (Int 1), [0%nat])].
Proof. reflexivity. Qed.

(** ** Exact arithmetic *)

Lemma ideal_div_real (a b : R) : b <> 0%R -> (IReal a / IReal b)%fl = IReal (a / b).
Proof. intros Hb. simpl. by destruct (Req_dec_T b 0). Qed.

Lemma ideal_sqrt_real (a : R) : (0 <= a)%R -> Math_sqrt (IReal a) = IReal (sqrt a).
Proof. intros Ha. simpl. destruct (Rlt_dec a 0); [lra | done]. Qed.

Lemma sqrt_of_square (r x : R) : (0 <= r)%R -> x = (r * r)%R -> sqrt x = r.
Proof. intros Hr ->. by apply sqrt_square. Qed.

Lemma ideal_half_is_div_two (x : ideal) : (x * f_half)%fl = (x / IReal 2)%fl.
Proof.
  destruct x as [|a]; [done|]. rewrite ideal_div_real by lra.
  simpl. f_equal. lra.
Qed.

(** The first loop on a triangle with edge lengths [a], [b], [c], area
    [area] and cross product of length [n]. *)
Lemma ideal_faceNormalAndArea (x0 y0 z0 x1 y1 z1 x2 y2 z2 a b c n area nx ny nz : R) :
  (0 <= a)%R ->
  ((x0 - x1) * (x0 - x1) + (y0 - y1) * (y0 - y1) + (z0 - z1) * (z0 - z1) = a * a)%R ->
  (0 <= b)%R ->
  ((x0 - x2) * (x0 - x2) + (y0 - y2) * (y0 - y2) + (z0 - z2) * (z0 - z2) = b * b)%R ->
  (0 <= c)%R ->
  ((x1 - x2) * (x1 - x2) + (y1 - y2) * (y1 - y2) + (z1 - z2) * (z1 - z2) = c * c)%R ->
  (0 <= area)%R ->
  ((a + b + c) * (1 / 2) * ((a + b + c) * (1 / 2) - a) * ((a + b + c) * (1 / 2) - b)
   * ((a + b + c) * (1 / 2) - c) = area * area)%R ->
  (0 < n)%R ->
  (((y0 - y1) * (z0 - z2) - (z0 - z1) * (y0 - y2)) *
   ((y0 - y1) * (z0 - z2) - (z0 - z1) * (y0 - y2)) +
   ((z0 - z1) * (x0 - x2) - (x0 - x1) * (z0 - z2)) *
   ((z0 - z1) * (x0 - x2) - (x0 - x1) * (z0 - z2)) +
   ((x0 - x1) * (y0 - y2) - (y0 - y1) * (x0 - x2)) *
   ((x0 - x1) * (y0 - y2) - (y0 - y1) * (x0 - x2)) = n * n)%R ->
  (nx * n = (y0 - y1) * (z0 - z2) - (z0 - z1) * (y0 - y2))%R ->
  (ny * n = (z0 - z1) * (x0 - x2) - (x0 - x1) * (z0 - z2))%R ->
  (nz * n = (x0 - x1) * (y0 - y2) - (y0 - y1) * (x0 - x2))%R ->
  faceNormalAndArea (IReal x0) (IReal y0) (IReal z0) (IReal x1) (IReal y1) (IReal z1)
    (IReal x2) (IReal y2) (IReal z2) =
  (IReal nx, IReal ny, IReal nz, IReal area).
Proof.
  intros Ha Ea Hb Eb Hc Ec Harea Earea Hn En Ex Ey Ez.
  unfold faceNormalAndArea.
  cbn [f_add f_sub f_mul f_half Math_hypot ideal_Float64 lift2 ideal_hypot].
  rewrite (sqrt_of_square a _ Ha Ea), (sqrt_of_square b _ Hb Eb),
    (sqrt_of_square c _ Hc Ec), (sqrt_of_square n _ (Rlt_le _ _ Hn) En).
  rewrite ideal_sqrt_real by (rewrite Earea; nra).
  rewrite (sqrt_of_square area _ Harea Earea).
  rewrite !ideal_div_real by lra.
  repeat f_equal; apply (Rmult_eq_reg_r n); try lra; field_simplify; lra.
Qed.

(** ** The two-triangle fan *)

Lemma fan_parsed :
  exists tet, parseTetFile (F:=ideal) fan = Normal tet /\ buildMesh tet = Normal fan_mesh.
Proof.
  eexists. split.
  - cbv -[IZR powerRZ Rmult]. rewrite !powerRZ_O, !Rmult_1_r. reflexivity.
  - cbv -[IZR]. reflexivity.
Qed.

Lemma fan_loads :
  exists s1, recalcNormals fan_mesh = Normal s1 /\
    loadTet (F:=ideal) fan = Normal (setGeometry (copyDataToBuffer s1) new_BufferGeometry).
Proof.
  destruct (recalcNormals_total fan_mesh) as [s1 Hs1].
  { repeat constructor. }
  exists s1. split; [done|].
  destruct fan_parsed as (tet & Hparse & Hmesh).
  unfold loadTet. rewrite Hparse. cbn [cbind]. rewrite Hmesh. cbn [cbind].
  rewrite Hs1. done.
Qed.

(** The face normals and areas of the fan: (0,0,1) with area 6 and (0,1,0)
    with area 24. *)
Lemma fan_faces (s1 : TetFile ideal) :
  recalcNormals fan_mesh = Normal s1 ->
  (faceNormals s1 !! 0%nat = Some (IReal 0) /\ faceNormals s1 !! 1%nat = Some (IReal 0) /\
   faceNormals s1 !! 2%nat = Some (IReal 1) /\ faceAreas s1 !! 0%nat = Some (IReal 6)) /\
  (faceNormals s1 !! 3%nat = Some (IReal 0) /\ faceNormals s1 !! 4%nat = Some (IReal 1) /\
   faceNormals s1 !! 5%nat = Some (IReal 0) /\ faceAreas s1 !! 1%nat = Some (IReal 24)).
Proof.
  intros (Hloop & _)%recalcNormals_inv. split.
  - destruct (recalcFaceNormals_lookup _ _ _ _ _ _ 0%nat _ Hloop eq_refl)
      as (v0 & v1 & v2 & [= <-] & [= <-] & [= <-] & Hslots);
      [simpl; lia | simpl; lia |].
    unfold faceGeometry in Hslots. read_coordinates Hslots.
    rewrite (ideal_faceNormalAndArea 0 0 0 3 0 0 0 4 0 3 4 5 12 6 0 0 1) in Hslots
      by lra.
    exact Hslots.
  - destruct (recalcFaceNormals_lookup _ _ _ _ _ _ 1%nat _ Hloop eq_refl)
      as (v0 & v1 & v2 & [= <-] & [= <-] & [= <-] & Hslots);
      [simpl; lia | simpl; lia |].
    unfold faceGeometry in Hslots. read_coordinates Hslots.
    rewrite (ideal_faceNormalAndArea 0 0 0 0 0 6 8 0 0 6 8 10 48 24 0 1 0) in Hslots
      by lra.
    exact Hslots.
Qed.

Lemma ideal_triple (a b c a' b' c' : R) :
  a = a' -> b = b' -> c = c' ->
  (IReal a, IReal b, IReal c) = (IReal a', IReal b', IReal c').
Proof. by intros -> -> ->. Qed.

Lemma sqrt2_pos : (0 < sqrt 2)%R.
Proof. apply sqrt_lt_R0. lra. Qed.

(** normalize(((0,0,1) + (0,1,0)) / (6 + 24)), the normal the source gives
    the shared vertex. *)
Lemma fan_unweighted :
  normalize
    (vdiv (vadd (vadd (f_zero, f_zero, f_zero) (IReal 0, IReal 0, IReal 1))
             (IReal 0, IReal 1, IReal 0))
       (f_zero + IReal 6 + IReal 24)%fl) =
  (IReal 0, IReal (/ sqrt 2), IReal (/ sqrt 2)).
Proof.
  pose proof sqrt2_pos as H2. pose proof (sqrt_sqrt 2 ltac:(lra)) as H22.
  cbn [vadd vdiv f_zero f_add lift2 ideal_Float64].
  rewrite !ideal_div_real by lra.
  unfold normalize, norm, vdiv. cbn [Math_hypot ideal_hypot ideal_Float64].
  rewrite (sqrt_of_square (sqrt 2 / 30)); [|lra|field_simplify; lra].
  rewrite !ideal_div_real by lra.
  apply ideal_triple; field; lra.
Qed.

Lemma fan_vertex (s1 : TetFile ideal) :
  recalcNormals fan_mesh = Normal s1 ->
  normals s1 !! 0%nat = Some (IReal 0) /\
  normals s1 !! 1%nat = Some (IReal (/ sqrt 2)) /\
  normals s1 !! 2%nat = Some (IReal (/ sqrt 2)).
Proof.
  intros Hs1.
  destruct (fan_faces s1 Hs1) as ((Hn0 & Hn1 & Hn2 & Ha0) & (Hn3 & Hn4 & Hn5 & Ha1)).
  destruct (recalcNormals_inv _ _ Hs1) as (_ & Hnormals & _).
  assert (NoDup (connectedFaces fan_mesh).*1) as Hnd
    by (apply (bool_decide_unpack _); vm_compute; reflexivity).
  pose proof (recalcVertexNormals_lookup (faceNormals s1) (faceAreas s1)
                (connectedFaces fan_mesh) 0 [0%nat; 1%nat] Hnd eq_refl
                ltac:(lia) ltac:(lia) (normals fan_mesh) ltac:(simpl; lia)) as Hv.
  rewrite <- Hnormals in Hv. rewrite vertexNormal_two_faces in Hv.
  cbn [Nat.mul Nat.add] in Hv. rewrite Hn0, Hn1, Hn2, Hn3, Hn4, Hn5, Ha0, Ha1 in Hv.
  cbn [num default from_option] in Hv. unfold Datatypes.id in Hv.
  rewrite fan_unweighted in Hv. exact Hv.
Qed.

(** normalize(6 (0,0,1) + 24 (0,1,0)), the normal the specification gives it. *)
Lemma fan_weighted :
  spec_vertexNormal2 (IReal 6) (IReal 0, IReal 0, IReal 1)
    (IReal 24) (IReal 0, IReal 1, IReal 0) =
  (IReal 0, IReal (4 / sqrt 17), IReal (1 / sqrt 17)).
Proof.
  assert (0 < sqrt 17)%R as H17 by (apply sqrt_lt_R0; lra).
  pose proof (sqrt_sqrt 17 ltac:(lra)) as Hsq.
  unfold spec_vertexNormal2, normalize, norm, vdiv, vadd, vscale.
  cbn [f_add f_mul lift2 Math_hypot ideal_hypot ideal_Float64].
  rewrite (sqrt_of_square (6 * sqrt 17)); [|lra|nra].
  rewrite !ideal_div_real by lra.
  apply ideal_triple; field; lra.
Qed.

Lemma fan_normals_differ : (/ sqrt 2 <> 4 / sqrt 17)%R.
Proof.
  pose proof sqrt2_pos as H2. pose proof (sqrt_sqrt 2 ltac:(lra)) as H22.
  assert (0 < sqrt 17)%R as H17 by (apply sqrt_lt_R0; lra).
  pose proof (sqrt_sqrt 17 ltac:(lra)) as Hsq.
  intros E.
  assert (sqrt 17 = 4 * sqrt 2)%R as E'.
  { apply (Rmult_eq_reg_l (/ sqrt 2)); [|apply Rinv_neq_0_compat; lra].
    rewrite E at 1. field. lra. }
  rewrite E' in Hsq. nra.
Qed.

(** ** C1: the normal of a vertex is not weighted by the areas *)

(** C1 fails on the fan.  The load completes; the two faces at vertex 0 have
    areas 6 and 24 and unit normals (0,0,1) and (0,1,0); [recalcNormals]
    gives vertex 0 the normal (0, 1/sqrt 2, 1/sqrt 2), the normalized plain
    sum of the two face normals, while normalize(A1.N1 + A2.N2) is
    (0, 4/sqrt 17, 1/sqrt 17). *)
Theorem fan_vertex_normal_ignores_areas :
  exists s, loadTet (F:=ideal) fan = Normal s /\
    Map_get (connectedFaces s) (Some (Int 0)) = Some [0%nat; 1%nat] /\
    (faceAreas s !! 0%nat = Some (IReal 6) /\ faceAreas s !! 1%nat = Some (IReal 24)) /\
    (faceNormals s !! 0%nat, faceNormals s !! 1%nat, faceNormals s !! 2%nat) =
      (Some (IReal 0), Some (IReal 0), Some (IReal 1)) /\
    (faceNormals s !! 3%nat, faceNormals s !! 4%nat, faceNormals s !! 5%nat) =
      (Some (IReal 0), Some (IReal 1), Some (IReal 0)) /\
    (normals s !! 0%nat, normals s !! 1%nat, normals s !! 2%nat) =
      (Some (IReal 0), Some (IReal (/ sqrt 2)), Some (IReal (/ sqrt 2))) /\
    spec_vertexNormal2 (IReal 6) (IReal 0, IReal 0, IReal 1)
      (IReal 24) (IReal 0, IReal 1, IReal 0) =
      (IReal 0, IReal (4 / sqrt 17), IReal (1 / sqrt 17)) /\
    (/ sqrt 2 <> 4 / sqrt 17)%R.
Proof.
  destruct fan_loads as (s1 & Hs1 & Hload).
  eexists. split; [exact Hload|].
  destruct (fan_faces s1 Hs1) as ((Hn0 & Hn1 & Hn2 & Ha0) & (Hn3 & Hn4 & Hn5 & Ha1)).
  destruct (fan_vertex s1 Hs1) as (Hv0 & Hv1 & Hv2).
  pose proof (recalcNormals_shape _ _ Hs1) as Hshape.
  unfold same_shape in Hshape. destruct Hshape as (_ & _ & _ & _ & Hcf & _).
  unfold setGeometry, copyDataToBuffer. simpl_fields.
  rewrite Hcf, Hn0, Hn1, Hn2, Hn3, Hn4, Hn5, Ha0, Ha1, Hv0, Hv1, Hv2.
  repeat split; [apply fan_weighted | apply fan_normals_differ].
Qed.

(** ** The flat triangle *)

Lemma flat_triangle_parsed :
  exists tet, parseTetFile (F:=ideal) flat_triangle = Normal tet /\
              buildMesh tet = Normal flat_triangle_mesh.
Proof.
  eexists. split.
  - cbv -[IZR powerRZ Rmult]. rewrite !powerRZ_O, !Rmult_1_r. reflexivity.
  - cbv -[IZR]. reflexivity.
Qed.

Lemma flat_triangle_three_corners : three_corners (faces flat_triangle_mesh).
Proof. repeat constructor. Qed.

Lemma flat_triangle_loads :
  exists s1, recalcNormals flat_triangle_mesh = Normal s1 /\
    loadTet (F:=ideal) flat_triangle =
      Normal (setGeometry (copyDataToBuffer s1) new_BufferGeometry).
Proof.
  destruct (recalcNormals_total flat_triangle_mesh flat_triangle_three_corners)
    as [s1 Hs1].
  exists s1. split; [done|].
  destruct flat_triangle_parsed as (tet & Hparse & Hmesh).
  unfold loadTet. rewrite Hparse. cbn [cbind]. rewrite Hmesh. cbn [cbind].
  rewrite Hs1. done.
Qed.

(** The scenario of the specification: the face normal is (0,0,1) and the
    area is 1/2. *)
Lemma flat_triangle_face (s1 : TetFile ideal) :
  recalcNormals flat_triangle_mesh = Normal s1 ->
  faceNormals s1 !! 0%nat = Some (IReal 0) /\ faceNormals s1 !! 1%nat = Some (IReal 0) /\
  faceNormals s1 !! 2%nat = Some (IReal 1) /\ faceAreas s1 !! 0%nat = Some (IReal (1 / 2)).
Proof.
  intros (Hloop & _)%recalcNormals_inv.
  destruct (recalcFaceNormals_lookup _ _ _ _ _ _ 0%nat _ Hloop eq_refl)
    as (v0 & v1 & v2 & [= <-] & [= <-] & [= <-] & Hslots);
    [simpl; lia | simpl; lia |].
  unfold faceGeometry in Hslots. read_coordinates Hslots.
  pose proof sqrt2_pos as H2. pose proof (sqrt_sqrt 2 ltac:(lra)) as H22.
  rewrite (ideal_faceNormalAndArea 0 0 0 1 0 0 0 1 0 1 1 (sqrt 2) 1 (1 / 2) 0 0 1)
    in Hslots; [exact Hslots | lra | lra | lra | lra | lra | nra | lra | nra | lra
                | lra | lra | lra | lra].
Qed.

(** ** The theorems at the flat triangle and at the fan *)

Lemma face_normal_and_area_witness :
  ((forall x : ideal, (x * f_half)%fl = (x / IReal 2)%fl) /\
   three_corners (faces flat_triangle_mesh) /\
   length (faceNormals flat_triangle_mesh) = (3 * length (faces flat_triangle_mesh))%nat /\
   length (faceAreas flat_triangle_mesh) = length (faces flat_triangle_mesh)) /\
  exists s', recalcNormals flat_triangle_mesh = Normal s' /\
    faceAreas s' !! 0%nat =
      Some (spec_faceArea (IReal 2) (IReal 0, IReal 0, IReal 0)
              (IReal 1, IReal 0, IReal 0) (IReal 0, IReal 1, IReal 0)).
Proof.
  split.
  - split; [exact ideal_half_is_div_two|].
    split; [exact flat_triangle_three_corners|]. split; reflexivity.
  - destruct (face_normal_and_area (IReal 2) flat_triangle_mesh ideal_half_is_div_two
                flat_triangle_three_corners eq_refl eq_refl) as (s' & Hs' & Hfaces).
    exists s'. split; [exact Hs'|].
    destruct (Hfaces 0%nat _ eq_refl) as (v0 & v1 & v2 & E0 & E1 & E2 & Hslots).
    injection E0 as <-. injection E1 as <-. injection E2 as <-.
    cbv zeta in Hslots.
    destruct (spec_faceNormal _ _ _) as [[nx ny] nz].
    exact (proj2 (proj2 (proj2 Hslots))).
Defined.

Lemma per_corner_buffers_length_witness :
  exists tet s, parseTetFile (F:=ideal) flat_triangle = Normal tet /\
    loadTet flat_triangle = Normal s /\
    length (verticesPositions s) = 9%nat /\
    length (verticesTexCoords s) = 6%nat /\
    length (verticesNormals s) = 9%nat.
Proof.
  destruct flat_triangle_parsed as (tet & Hparse & Hmesh).
  destruct (per_corner_buffers_length flat_triangle tet Hparse)
    as ((s & Hload & Hfaces & Hp & Ht & Hn) & _).
  exists tet, s. split; [exact Hparse|]. split; [exact Hload|].
  assert (Parsed.faces tet = faces flat_triangle_mesh) as Hf.
  { destruct (buildMesh_spec tet (parseTetFile_ok _ _ Hparse)) as (mesh & Hm & Hfm & _).
    assert (mesh = flat_triangle_mesh) as -> by congruence.
    symmetry. exact Hfm. }
  rewrite Hfaces, Hf in Hp, Ht, Hn. exact (conj Hp (conj Ht Hn)).
Defined.

Lemma normals_buffer_length_witness :
  exists s, loadTet (F:=ideal) flat_triangle = Normal s /\
    vertexCount s = 3%nat /\ length (normals s) = 27%nat.
Proof.
  destruct flat_triangle_loads as (s1 & Hs1 & Hload).
  eexists. split; [exact Hload|].
  destruct (normals_buffer_length _ _ Hload) as [Hv Hn].
  pose proof (recalcNormals_shape _ _ Hs1) as Hshape.
  unfold same_shape in Hshape. destruct Hshape as (Hvs & _).
  assert (vertexCount (setGeometry (copyDataToBuffer s1) new_BufferGeometry) = 3%nat)
    as Hc.
  { unfold vertexCount, setGeometry, copyDataToBuffer. simpl_fields.
    rewrite Hvs. reflexivity. }
  split; [exact Hc|]. rewrite Hn, Hc. reflexivity.
Defined.

Lemma adjacency_complete_witness :
  exists s, loadTet (F:=ideal) fan = Normal s /\
    (exists faceIndex, incident (faces s) (Some (Int 0)) faceIndex) /\
    exists connections,
      Map_get (connectedFaces s) (Some (Int 0)) = Some connections /\
      connections <> [] /\ NoDup connections.
Proof.
  destruct fan_loads as (s1 & Hs1 & Hload).
  eexists. split; [exact Hload|].
  destruct (adjacency_complete _ _ Hload (Some (Int 0))) as [Hiff Hentry].
  pose proof (recalcNormals_shape _ _ Hs1) as Hshape.
  unfold same_shape in Hshape. destruct Hshape as (_ & _ & _ & Hf & _).
  assert (exists faceIndex,
             incident (faces (setGeometry (copyDataToBuffer s1) new_BufferGeometry))
               (Some (Int 0)) faceIndex) as Hinc.
  { exists 0%nat. unfold incident, setGeometry, copyDataToBuffer. simpl_fields.
    rewrite Hf. exists [[Int 0; Int 0]; [Int 1; Int 0]; [Int 2; Int 0]], [Int 0; Int 0].
    split; [reflexivity|]. split; [by left | reflexivity]. }
  split; [exact Hinc|].
  destruct (proj1 Hiff Hinc) as [connections Hget].
  exists connections. split; [exact Hget|].
  destruct (Hentry connections Hget) as (Hne & Hnd & _). exact (conj Hne Hnd).
Defined.

Lemma recalcNormals_idempotent_witness :
  three_corners (faces flat_triangle_mesh) /\
  exists s', recalcNormals flat_triangle_mesh = Normal s' /\
             recalcNormals s' = Normal s'.
Proof.
  split; [exact flat_triangle_three_corners|].
  destruct (recalcNormals_idempotent flat_triangle_mesh flat_triangle_three_corners)
    as (s' & Hs' & _ & Hagain).
  exists s'. exact (conj Hs' Hagain).
Defined.

(** * Further properties of the loader *)

(** ** When the parser throws *)

Lemma parseFace_Throw values :
  parseFace values 0 3 [] = Throw -> (length values < 4)%nat.
Proof.
  destruct values as [|v0 [|v1 [|v2 [|v3 vs]]]]; simpl; try lia; discriminate.
Qed.

Section ParserThrows.
Context {F : Type} `{Float64 F}.

Lemma parseLine_Throw (result : ParsedTetFile F) line :
  parseLine result line = Throw -> short_face_line line.
Proof.
  unfold parseLine, short_face_line.
  destruct (startsWith (trim line) "#"); [done|].
  destruct (length (split " " (trim line)) <? 1)%nat; [done|].
  unfold parseDirective.
  destruct (split " " (trim line)) as [|d rest] eqn:Hs; [done|].
  cbn [lookup list_lookup].
  destruct (String.eqb d "v"); [done|].
  destruct (String.eqb d "vt"); [done|].
  destruct (String.eqb_spec d "f") as [->|_].
  - destruct (parseFace ("f" :: rest) 0 3 []) eqn:E; [done|].
    intros _. exists rest. split; [done|].
    apply parseFace_Throw in E. simpl in E. lia.
  - by destruct (String.eqb d "t").
Qed.

Lemma forEach_line_Throw lines :
  forall result : ParsedTetFile F,
    forEach_line lines result = Throw ->
    exists line, line ∈ lines /\ short_face_line line.
Proof.
  induction lines as [|l lines IH]; intros result; cbn [forEach_line]; [done|].
  destruct (parseLine result l) as [r|] eqn:E; cbn [cbind].
  - intros (line & Hin & Hshort)%IH. exists line. split; [by right | done].
  - intros _. exists l. split; [by left | by eapply parseLine_Throw].
Qed.

(** X1.  The parser throws exactly on the texts with a face line of fewer
    than three tokens after the [f].  The load passes a mesh to [resolve]
    exactly on the other texts: after the parser no step of the load throws,
    and when the parser throws [resolve] is not reached. *)
Theorem load_resolves_iff_no_short_face_line (text : string) :
  (parseTetFile (F:=F) text = Throw <->
   exists line, line ∈ split_lines text /\ short_face_line line) /\
  ((exists s, loadTet (F:=F) text = Normal s) <->
   ~ exists line, line ∈ split_lines text /\ short_face_line line).
Proof.
  assert (parseTetFile (F:=F) text = Throw <->
          exists line, line ∈ split_lines text /\ short_face_line line) as Hthrow.
  { split.
    - apply forEach_line_Throw.
    - intros (line & Hin & rest & Hs & Hlen). unfold parseTetFile.
      apply forEach_line_throw with line; [done|].
      intros result. by apply parseLine_short_face with rest. }
  split; [exact Hthrow|]. split.
  - intros [s Hload] Hshort. apply Hthrow in Hshort.
    unfold loadTet in Hload. by rewrite Hshort in Hload.
  - intros Hshort.
    destruct (parseTetFile (F:=F) text) as [tet|] eqn:Hparse.
    + destruct (loadTet_spec text tet Hparse) as (mesh & s1 & _ & _ & Hload).
      eexists. exact Hload.
    + destruct Hshort. by apply Hthrow.
Qed.

(** ** The lines the parser skips *)

(** X2.  A line leaves the result as it is exactly when it is a comment or
    its first token is none of [v], [vt], [f], [t]; a blank line is such a
    line. *)
Theorem skipped_lines (result : ParsedTetFile F) (line : string) :
  (parseLine result line = Normal result <->
   match directiveOf line with
   | None => True
   | Some d => d <> "v" /\ d <> "vt" /\ d <> "f" /\ d <> "t"
   end) /\
  parseLine result "" = Normal result.
Proof.
  split; [|reflexivity].
  unfold parseLine, directiveOf.
  destruct (startsWith (trim line) "#"); [done|].
  pose proof (split_nonempty " " (trim line)) as Hne.
  destruct (split " " (trim line)) as [|d rest] eqn:Hs; [done|].
  cbn [length Nat.ltb Nat.leb lookup list_lookup]. unfold parseDirective.
  cbn [lookup list_lookup].
  destruct (String.eqb_spec d "v") as [->|Hv].
  { split; [|tauto]. intros [= E]. apply (f_equal (fun r => length (Parsed.vertices r))) in E. cbn in E.
    rewrite length_app in E. simpl in E. lia. }
  destruct (String.eqb_spec d "vt") as [->|Hvt].
  { split; [|tauto]. intros [= E]. apply (f_equal (fun r => length (Parsed.texCoords r))) in E. cbn in E.
    rewrite length_app in E. simpl in E. lia. }
  destruct (String.eqb_spec d "f") as [->|Hf].
  { split; [|tauto]. destruct (parseFace ("f" :: rest) 0 3 []); [|done].
    cbn [cbind]. intros [= E]. apply (f_equal (fun r => length (Parsed.faces r))) in E. cbn in E.
    rewrite length_app in E. simpl in E. lia. }
  destruct (String.eqb_spec d "t") as [->|Ht].
  { split; [|tauto]. intros [= E]. apply (f_equal (fun r => length (Parsed.tetsIndices r))) in E. cbn in E.
    rewrite length_app in E. simpl in E. lia. }
  tauto.
Qed.

(** ** Tokens past the arguments *)

(** X3.  A directive reads its first 3 ([v]), 2 ([vt]), 3 ([f]) or 4 ([t])
    arguments: tokens after them change nothing. *)
Theorem extra_tokens_ignored (result : ParsedTetFile F) (d : string)
    (values extra : list string) :
  values !! 0%nat = Some d -> (arity d <= length values)%nat ->
  parseDirective result (values ++ extra) = parseDirective result values.
Proof.
  intros Hd Hlen. unfold parseDirective.
  rewrite (lookup_app_l values extra 0) by (apply lookup_lt_Some in Hd; lia).
  rewrite Hd. unfold arity in Hlen.
  destruct (String.eqb d "v"); [by rewrite !lookup_app_l by lia|].
  destruct (String.eqb d "vt"); [by rewrite !lookup_app_l by lia|].
  destruct (String.eqb d "f").
  { cbn [parseFace]. by rewrite !lookup_app_l by (simpl; lia). }
  destruct (String.eqb d "t"); [by rewrite !lookup_app_l by lia|].
  done.
Qed.

(** ** The sizes of the parsed arrays *)

Lemma parseLine_sizes (result result' : ParsedTetFile F) line :
  parseLine result line = Normal result' ->
  length (Parsed.vertices result') =
    (length (Parsed.vertices result) + 3 * (if is_directive "v" line then 1 else 0))%nat /\
  length (Parsed.texCoords result') =
    (length (Parsed.texCoords result) + 2 * (if is_directive "vt" line then 1 else 0))%nat /\
  length (Parsed.faces result') =
    (length (Parsed.faces result) + (if is_directive "f" line then 1 else 0))%nat /\
  length (Parsed.tetsIndices result') =
    (length (Parsed.tetsIndices result) + 4 * (if is_directive "t" line then 1 else 0))%nat.
Proof.
  unfold parseLine, is_directive, directiveOf.
  destruct (startsWith (trim line) "#"); [intros [= <-]; lia|].
  pose proof (split_nonempty " " (trim line)) as Hne.
  destruct (split " " (trim line)) as [|d rest] eqn:Hs; [done|].
  cbn [length Nat.ltb Nat.leb lookup list_lookup]. unfold parseDirective.
  cbn [lookup list_lookup].
  destruct (String.eqb_spec d "v") as [->|Hv].
  { intros [= <-]. cbn. rewrite length_app. simpl. lia. }
  destruct (String.eqb_spec d "vt") as [->|Hvt].
  { intros [= <-]. cbn. rewrite length_app. simpl. lia. }
  destruct (String.eqb_spec d "f") as [->|Hf].
  { destruct (parseFace ("f" :: rest) 0 3 []); [|done].
    cbn [cbind]. intros [= <-]. cbn. rewrite length_app. simpl. lia. }
  destruct (String.eqb_spec d "t") as [->|Ht].
  { intros [= <-]. cbn. rewrite length_app. simpl. lia. }
  intros [= <-]. lia.
Qed.

Lemma forEach_line_sizes lines :
  forall result result' : ParsedTetFile F,
    forEach_line lines result = Normal result' ->
    length (Parsed.vertices result') =
      (length (Parsed.vertices result) + 3 * count_directive "v" lines)%nat /\
    length (Parsed.texCoords result') =
      (length (Parsed.texCoords result) + 2 * count_directive "vt" lines)%nat /\
    length (Parsed.faces result') =
      (length (Parsed.faces result) + count_directive "f" lines)%nat /\
    length (Parsed.tetsIndices result') =
      (length (Parsed.tetsIndices result) + 4 * count_directive "t" lines)%nat.
Proof.
  induction lines as [|line lines IH]; intros result result'; cbn [forEach_line].
  - intros [= <-]. simpl. lia.
  - destruct (parseLine result line) as [r|] eqn:E; [|done]. cbn [cbind].
    intros (Hv & Ht & Hf & Hi)%IH.
    apply parseLine_sizes in E as (Ev & Et & Ef & Ei).
    cbn [count_directive]. lia.
Qed.

(** X4.  A text that parses yields three floats for every [v] line, two for
    every [vt] line, one face for every [f] line and four indices for every
    [t] line, whatever else the lines hold. *)
Theorem parsed_sizes (text : string) (tet : ParsedTetFile F) :
  parseTetFile text = Normal tet ->
  length (Parsed.vertices tet) = (3 * count_directive "v" (split_lines text))%nat /\
  length (Parsed.texCoords tet) = (2 * count_directive "vt" (split_lines text))%nat /\
  length (Parsed.faces tet) = count_directive "f" (split_lines text) /\
  length (Parsed.tetsIndices tet) = (4 * count_directive "t" (split_lines text))%nat.
Proof.
  intros Hparse. apply forEach_line_sizes in Hparse. simpl in Hparse. lia.
Qed.
End ParserThrows.

(** ** Line endings *)

Lemma split_lines_crlf text :
  contains "013" text = false -> split_lines (crlf text) = split_lines text.
Proof.
  induction text as [|c s IH]; [done|]. cbn [contains crlf split_lines].
  intros [Hc Hs]%orb_false_elim.
  destruct (Ascii.eqb c "010") eqn:E.
  - cbn [split_lines startsWith]. simpl. by rewrite IH.
  - cbn [split_lines]. rewrite E, Hc. cbn [andb]. by rewrite IH.
Qed.

(** X5.  A text with line feeds parses the same when every line ends with a
    carriage return and a line feed. *)
Theorem crlf_parses_the_same {F : Type} `{Float64 F} (text : string) :
  contains "013" text = false ->
  parseTetFile (F:=F) (crlf text) = parseTetFile (F:=F) text.
Proof. intros Hcr. unfold parseTetFile. by rewrite split_lines_crlf. Qed.

(** ** The per-corner loops *)

Section PerCornerLoop.
Context {F : Type}.
Variable stride : nat.
Variable body : nat -> Corner -> list F -> list F.
Variable val : Corner -> nat -> F.
Hypothesis body_frame : forall i corner buf j,
  (j < i * stride \/ (i + 1) * stride <= j)%nat -> body i corner buf !! j = buf !! j.
Hypothesis body_value : forall i corner buf k,
  (k < stride)%nat -> (i * stride + k < length buf)%nat ->
  body i corner buf !! (i * stride + k)%nat = Some (val corner k).
Hypothesis body_length : forall i corner buf, length (body i corner buf) = length buf.

Lemma forEachEntry_counter (face : Face) :
  forall i buf, (forEachEntry body face i buf).1 = (i + length face)%nat.
Proof.
  induction face as [|c face IH]; intros i buf; simpl; [lia|]. rewrite IH. lia.
Qed.

Lemma forEachEntry_length (face : Face) :
  forall i buf, length (forEachEntry body face i buf).2 = length buf.
Proof.
  induction face as [|c face IH]; intros i buf; simpl; [done|].
  by rewrite IH, body_length.
Qed.

Lemma forEachEntry_frame (face : Face) :
  forall i buf j, (j < i * stride)%nat -> (forEachEntry body face i buf).2 !! j = buf !! j.
Proof.
  induction face as [|c face IH]; intros i buf j Hj; simpl; [done|].
  rewrite IH by lia. apply body_frame. by left.
Qed.

Lemma forEachEntry_lookup (face : Face) :
  forall i buf p corner k,
    face !! p = Some corner -> (k < stride)%nat ->
    ((i + p) * stride + k < length buf)%nat ->
    (forEachEntry body face i buf).2 !! ((i + p) * stride + k)%nat = Some (val corner k).
Proof.
  induction face as [|c face IH]; intros i buf p corner k Hp Hk Hlen; [done|].
  destruct p as [|p]; simpl in Hp; cbn [forEachEntry].
  - injection Hp as ->. rewrite forEachEntry_frame by nia.
    replace (i + 0)%nat with i in * by lia. by apply body_value.
  - replace (i + S p)%nat with (S i + p)%nat in * by lia.
    apply IH; [done | done | by rewrite body_length].
Qed.

Lemma forEachEntry_app (face1 face2 : Face) :
  forall i buf,
    forEachEntry body (face1 ++ face2) i buf =
    forEachEntry body face2 (forEachEntry body face1 i buf).1
      (forEachEntry body face1 i buf).2.
Proof. induction face1 as [|c face1 IH]; intros i buf; simpl; [done | apply IH]. Qed.

(** The two nested loops visit the corners of all faces in one row. *)
Lemma forEachCorner_concat (faces : list Face) :
  forall i buf, forEachCorner body faces i buf = (forEachEntry body (concat faces) i buf).2.
Proof.
  induction faces as [|face faces IH]; intros i buf; [done|].
  cbn [forEachCorner concat]. rewrite forEachEntry_app.
  destruct (forEachEntry body face i buf) as [i' buf']. apply IH.
Qed.

Lemma concat_triangles (faces : list Face) :
  Forall triangle faces ->
  forall fi face j (corner : Corner),
    faces !! fi = Some face -> face !! j = Some corner ->
    concat faces !! (3 * fi + j)%nat = Some corner.
Proof.
  induction 1 as [|face0 faces [Hlen _] _ IH]; intros fi face j corner Hf Hc; [done|].
  cbn [concat]. destruct fi as [|fi]; simpl in Hf.
  - injection Hf as ->. rewrite lookup_app_l by (apply lookup_lt_Some in Hc; lia).
    by rewrite Nat.mul_0_r.
  - rewrite lookup_app_r by lia.
    replace (3 * S fi + j - length face0)%nat with (3 * fi + j)%nat by lia.
    by eapply IH.
Qed.

(** What the loops leave in the floats of corner [j] of face [fi]. *)
Lemma forEachCorner_lookup (faces : list Face) buf fi face j corner k :
  Forall triangle faces ->
  faces !! fi = Some face -> face !! j = Some corner -> (k < stride)%nat ->
  ((3 * fi + j) * stride + k < length buf)%nat ->
  forEachCorner body faces 0 buf !! ((3 * fi + j) * stride + k)%nat = Some (val corner k).
Proof.
  intros Htri Hf Hc Hk Hlen. rewrite forEachCorner_concat.
  apply (forEachEntry_lookup (concat faces) 0 buf (3 * fi + j)); [|done|done].
  by eapply concat_triangles.
Qed.
End PerCornerLoop.

Section PerCornerBuffers.
Context {F : Type} `{Float64 F}.

(** The float a per-corner loop stores for component [k] of a corner: the
    float [index * stride + k] of [source], [NaN] when there is none. *)
Lemma copyVertexEntry_frame (source : list F) i corner buf j :
  (j < i * 3 \/ (i + 1) * 3 <= j)%nat ->
  copyVertexEntry source i corner buf !! j = buf !! j.
Proof.
  intros Hj. unfold copyVertexEntry, ta_store. cbv zeta.
  by rewrite !list_lookup_insert_ne by lia.
Qed.

Lemma copyVertexEntry_value (source : list F) i corner buf k :
  (k < 3)%nat -> (i * 3 + k < length buf)%nat ->
  copyVertexEntry source i corner buf !! (i * 3 + k)%nat =
  Some (fround (num (ta_get source (flat_index (corner !! 0%nat) 3 (Z.of_nat k))))).
Proof.
  intros Hk Hlen. unfold copyVertexEntry, ta_store. cbv zeta.
  destruct k as [|[|[|k]]]; [| | |lia]; cbn [Z.of_nat Pos.of_succ_nat Pos.succ];
    rewrite ?list_lookup_insert_ne by lia;
    apply list_lookup_insert_eq; rewrite ?length_insert; lia.
Qed.

Lemma copyVertexEntry_length (source : list F) i corner buf :
  length (copyVertexEntry source i corner buf) = length buf.
Proof. apply (is_stores_length _ _ (is_stores_copyVertexEntry source i corner)). Qed.

Lemma copyTexCoordEntry_frame (source : list F) i corner buf j :
  (j < i * 2 \/ (i + 1) * 2 <= j)%nat ->
  copyTexCoordEntry source i corner buf !! j = buf !! j.
Proof.
  intros Hj. unfold copyTexCoordEntry, ta_store. cbv zeta.
  by rewrite !list_lookup_insert_ne by lia.
Qed.

Lemma copyTexCoordEntry_value (source : list F) i corner buf k :
  (k < 2)%nat -> (i * 2 + k < length buf)%nat ->
  copyTexCoordEntry source i corner buf !! (i * 2 + k)%nat =
  Some (fround (num (ta_get source (flat_index (corner !! 1%nat) 2 (Z.of_nat k))))).
Proof.
  intros Hk Hlen. unfold copyTexCoordEntry, ta_store. cbv zeta.
  destruct k as [|[|k]]; [| |lia]; cbn [Z.of_nat Pos.of_succ_nat Pos.succ];
    rewrite ?list_lookup_insert_ne by lia;
    apply list_lookup_insert_eq; rewrite ?length_insert; lia.
Qed.

Lemma copyTexCoordEntry_length (source : list F) i corner buf :
  length (copyTexCoordEntry source i corner buf) = length buf.
Proof. apply (is_stores_length _ _ (is_stores_copyTexCoordEntry source i corner)). Qed.

(** ** copyDataToBuffer: the per-corner positions *)

(** X6.  After [copyDataToBuffer], on a mesh of triangles, the three floats
    of corner [j] of face [fi] in the position buffer are the three floats of
    the vertex the corner names, as they are in [vertices] at the time of the
    call; nothing else of the mesh changes but the mark on the geometry. *)
Theorem copyDataToBuffer_positions (s : TetFile F) fi face j corner k :
  Forall triangle (faces s) ->
  faces s !! fi = Some face -> face !! j = Some corner -> (k < 3)%nat ->
  ((3 * fi + j) * 3 + k < length (verticesPositions s))%nat ->
  verticesPositions (copyDataToBuffer s) !! ((3 * fi + j) * 3 + k)%nat =
    Some (fround (num (ta_get (vertices s) (flat_index (corner !! 0%nat) 3 (Z.of_nat k))))) /\
  vertices (copyDataToBuffer s) = vertices s /\
  normals (copyDataToBuffer s) = normals s /\
  verticesNormals (copyDataToBuffer s) = verticesNormals s /\
  verticesTexCoords (copyDataToBuffer s) = verticesTexCoords s.
Proof.
  intros Htri Hf Hc Hk Hlen. split; [|done].
  unfold copyDataToBuffer. simpl_fields.
  apply (forEachCorner_lookup 3 _
           (fun corner k =>
              fround (num (ta_get (vertices s)
                             (flat_index (corner !! 0%nat) 3 (Z.of_nat k))))))
    with face; try done.
  - apply copyVertexEntry_frame.
  - apply copyVertexEntry_value.
  - apply copyVertexEntry_length.
Qed.

(** ** recalcNormals: the per-corner normals *)

(** X7.  After [recalcNormals], on a mesh of triangles, the three floats of
    a corner in the per-corner normal buffer are the three floats of the
    normal of the vertex the corner names; so two corners that name the same
    vertex hold the same normal, also across faces. *)
Theorem recalcNormals_corner_normals (s s' : TetFile F) :
  recalcNormals s = Normal s' -> Forall triangle (faces s) ->
  (forall fi face j corner k,
      faces s !! fi = Some face -> face !! j = Some corner -> (k < 3)%nat ->
      ((3 * fi + j) * 3 + k < length (verticesNormals s))%nat ->
      verticesNormals s' !! ((3 * fi + j) * 3 + k)%nat =
      Some (fround (num (ta_get (normals s')
                           (flat_index (corner !! 0%nat) 3 (Z.of_nat k)))))) /\
  (forall fi face j corner fi' face' j' corner' k,
      faces s !! fi = Some face -> face !! j = Some corner ->
      faces s !! fi' = Some face' -> face' !! j' = Some corner' ->
      corner !! 0%nat = corner' !! 0%nat -> (k < 3)%nat ->
      ((3 * fi + j) * 3 + k < length (verticesNormals s))%nat ->
      ((3 * fi' + j') * 3 + k < length (verticesNormals s))%nat ->
      verticesNormals s' !! ((3 * fi + j) * 3 + k)%nat =
      verticesNormals s' !! ((3 * fi' + j') * 3 + k)%nat).
Proof.
  intros (_ & _ & Hvn)%recalcNormals_inv Htri.
  assert (forall fi face j corner k,
      faces s !! fi = Some face -> face !! j = Some corner -> (k < 3)%nat ->
      ((3 * fi + j) * 3 + k < length (verticesNormals s))%nat ->
      verticesNormals s' !! ((3 * fi + j) * 3 + k)%nat =
      Some (fround (num (ta_get (normals s')
                           (flat_index (corner !! 0%nat) 3 (Z.of_nat k)))))) as Hone.
  { intros fi face j corner k Hf Hc Hk Hlen. rewrite Hvn.
    apply (forEachCorner_lookup 3 _
             (fun corner k =>
                fround (num (ta_get (normals s')
                               (flat_index (corner !! 0%nat) 3 (Z.of_nat k))))))
      with face; try done.
    - apply copyVertexEntry_frame.
    - apply copyVertexEntry_value.
    - apply copyVertexEntry_length. }
  split; [exact Hone|].
  intros fi face j corner fi' face' j' corner' k Hf Hc Hf' Hc' Hsame Hk Hlen Hlen'.
  rewrite (Hone fi face j corner k), (Hone fi' face' j' corner' k) by done.
  by rewrite Hsame.
Qed.
End PerCornerBuffers.

(** ** C9: the render geometry may be absent *)

Section AbsentGeometry.
Context {F : Type} `{Float64 F}.

(** C9.  On a mesh with no geometry, [recalcNormals] and [copyDataToBuffer]
    run to completion and the geometry stays absent.  The buffers are
    written all the same.  After [recalcNormals] every face has its normal
    and its area in [faceNormals] and [faceAreas], every vertex with an entry
    in the Map has its normal in [normals], and every corner of a mesh of
    triangles has the normal of its vertex in [verticesNormals]; after
    [copyDataToBuffer] every corner has the position of its vertex in
    [verticesPositions].  Every buffer holds what it holds when the geometry
    is present: only the mark on the geometry is skipped. *)
Theorem absent_geometry_tolerated (s : TetFile F) :
  geometry s = None -> three_corners (faces s) ->
  (exists s', recalcNormals s = Normal s' /\ geometry s' = None /\
     (forall faceIndex face,
        faces s !! faceIndex = Some face ->
        (faceIndex * 3 + 2 < length (faceNormals s))%nat ->
        (faceIndex < length (faceAreas s))%nat ->
        exists v0 v1 v2,
          cornerVertex face 0 = Normal v0 /\ cornerVertex face 1 = Normal v1 /\
          cornerVertex face 2 = Normal v2 /\
          let '(xn, yn, zn, area) := faceGeometry (vertices s) v0 v1 v2 in
          faceNormals s' !! (faceIndex * 3 + 0)%nat = Some (fround xn) /\
          faceNormals s' !! (faceIndex * 3 + 1)%nat = Some (fround yn) /\
          faceNormals s' !! (faceIndex * 3 + 2)%nat = Some (fround zn) /\
          faceAreas s' !! faceIndex = Some (fround area)) /\
     (forall z l,
        NoDup (connectedFaces s).*1 ->
        Map_get (connectedFaces s) (Some (Int z)) = Some l ->
        0 <= z -> 3 * z + 2 < 2 ^ 53 ->
        (Z.to_nat (3 * z + 2) < length (normals s))%nat ->
        let '(x, y, w) := vertexNormal (faceNormals s') (faceAreas s') l in
        normals s' !! Z.to_nat (3 * z + 0) = Some (fround x) /\
        normals s' !! Z.to_nat (3 * z + 1) = Some (fround y) /\
        normals s' !! Z.to_nat (3 * z + 2) = Some (fround w)) /\
     (forall fi face j corner k,
        Forall triangle (faces s) ->
        faces s !! fi = Some face -> face !! j = Some corner -> (k < 3)%nat ->
        ((3 * fi + j) * 3 + k < length (verticesNormals s))%nat ->
        verticesNormals s' !! ((3 * fi + j) * 3 + k)%nat =
        Some (fround (num (ta_get (normals s')
                             (flat_index (corner !! 0%nat) 3 (Z.of_nat k)))))) /\
     forall g, exists t',
       recalcNormals (setGeometry s g) = Normal t' /\
       faceNormals t' = faceNormals s' /\ faceAreas t' = faceAreas s' /\
       normals t' = normals s' /\ verticesNormals t' = verticesNormals s' /\
       (normal_needsUpdate <$> geometry t') = Some true) /\
  geometry (copyDataToBuffer s) = None /\
  (forall fi face j corner k,
     Forall triangle (faces s) ->
     faces s !! fi = Some face -> face !! j = Some corner -> (k < 3)%nat ->
     ((3 * fi + j) * 3 + k < length (verticesPositions s))%nat ->
     verticesPositions (copyDataToBuffer s) !! ((3 * fi + j) * 3 + k)%nat =
     Some (fround (num (ta_get (vertices s)
                          (flat_index (corner !! 0%nat) 3 (Z.of_nat k)))))) /\
  forall g,
    verticesPositions (copyDataToBuffer (setGeometry s g)) =
    verticesPositions (copyDataToBuffer s) /\
    (position_needsUpdate <$> geometry (copyDataToBuffer (setGeometry s g))) = Some true.
Proof.
  intros Hg Hwf. split; [|split; [|split]].
  - destruct (recalcNormals_total s Hwf) as [s' Hs'].
    exists s'. split; [done|].
    destruct (recalcNormals_inv _ _ Hs') as (Hloop & _ & Hvn).
    assert (geometry s' = None /\
            forall g, exists t',
              recalcNormals (setGeometry s g) = Normal t' /\
              faceNormals t' = faceNormals s' /\ faceAreas t' = faceAreas s' /\
              normals t' = normals s' /\ verticesNormals t' = verticesNormals s' /\
              (normal_needsUpdate <$> geometry t') = Some true) as [Hg' Hwith].
    { revert Hs'. clear Hloop Hvn. unfold recalcNormals, setGeometry. simpl_fields.
      destruct (recalcFaceNormals_total (vertices s) (faces s) Hwf 0%nat
                  (faceNormals s) (faceAreas s)) as [fs ->].
      simpl_fields. intros [= <-]. simpl_fields. rewrite Hg.
      split; [done|]. intros g. eexists. split; [reflexivity|]. simpl_fields. done. }
    split; [exact Hg'|]. split; [|split; [|split; [|exact Hwith]]].
    + intros faceIndex face Hf Hlen Hlen'.
      exact (recalcFaceNormals_lookup _ _ 0%nat _ _ _ faceIndex face Hloop Hf Hlen Hlen').
    + intros z l Hnd Hget Hz Hb Hlen.
      exact (recalcNormals_vertex_normal s s' z l Hs' Hnd Hget Hz Hb Hlen).
    + intros fi face j corner k Htri Hf Hc Hk Hlen. rewrite Hvn.
      apply (forEachCorner_lookup 3 _
               (fun corner k =>
                  fround (num (ta_get (normals s')
                                 (flat_index (corner !! 0%nat) 3 (Z.of_nat k))))))
        with face; try done.
      * apply copyVertexEntry_frame.
      * apply copyVertexEntry_value.
      * apply copyVertexEntry_length.
  - unfold copyDataToBuffer. simpl_fields. by rewrite Hg.
  - intros fi face j corner k Htri Hf Hc Hk Hlen.
    unfold copyDataToBuffer. simpl_fields.
    apply (forEachCorner_lookup 3 _
             (fun corner k =>
                fround (num (ta_get (vertices s)
                               (flat_index (corner !! 0%nat) 3 (Z.of_nat k))))))
      with face; try done.
    + apply copyVertexEntry_frame.
    + apply copyVertexEntry_value.
    + apply copyVertexEntry_length.
  - intros g. unfold copyDataToBuffer, setGeometry. simpl_fields. done.
Qed.
End AbsentGeometry.

(** ** The loaded mesh *)

Lemma Map_get_None (m : JSMap) k : Map_get m k = None -> k ∉ m.*1.
Proof.
  induction m as [|[k0 v0] m IH]; simpl; [intros _; apply not_elem_of_nil|].
  destruct (decide (k0 = k)) as [->|Hne]; [done|].
  intros Hget. apply not_elem_of_cons. split; [congruence | by apply IH].
Qed.

Lemma parseCorner_no_slash token :
  contains "/" token = false -> parseCorner token = [jsub (parseInt token) 1].
Proof. intros Hno. unfold parseCorner. by rewrite split_no_sep. Qed.

Section LoadedMesh.
Context {F : Type} `{Float64 F}.

Lemma loadTet_parts text (s : TetFile F) :
  loadTet text = Normal s ->
  exists tet mesh s1,
    parseTetFile text = Normal tet /\ buildMesh tet = Normal mesh /\
    recalcNormals mesh = Normal s1 /\
    s = setGeometry (copyDataToBuffer s1) new_BufferGeometry.
Proof.
  unfold loadTet.
  destruct (parseTetFile text) as [tet|] eqn:Hparse; [|done]. cbn [cbind].
  destruct (buildMesh tet) as [mesh|] eqn:Hmesh; [|done]. cbn [cbind].
  destruct (recalcNormals mesh) as [s1|] eqn:Hs1; [|done]. cbn [cbind].
  intros [= <-]. by exists tet, mesh, s1.
Qed.

Lemma buildMesh_fields (tet : ParsedTetFile F) (mesh : TetFile F) :
  buildMesh tet = Normal mesh ->
  faces mesh = Parsed.faces tet /\
  tetsIndices mesh = map ToUint32 (Parsed.tetsIndices tet) /\
  normals mesh = new_Float32Array (length (vertices mesh) * 3) /\
  verticesTexCoords mesh =
    forEachCorner (copyTexCoordEntry (texCoords mesh)) (faces mesh) 0
      (new_Float32Array (length (faces mesh) * 3 * 2)).
Proof.
  unfold buildMesh.
  destruct (fillConnectedFaces (Parsed.faces tet) 0 []) as [m|]; [|done].
  cbn [cbind]. intros [= <-]. simpl_fields. done.
Qed.

(** What [recalcNormals] does not write. *)
Lemma recalcNormals_keeps (s s' : TetFile F) :
  recalcNormals s = Normal s' ->
  verticesTexCoords s' = verticesTexCoords s /\
  verticesPositions s' = verticesPositions s.
Proof.
  unfold recalcNormals.
  destruct (recalcFaceNormals (vertices s) (faces s) 0 (faceNormals s) (faceAreas s));
    [|done].
  cbn [cbind]. by intros [= <-].
Qed.

(** The three per-corner buffers of a loaded mesh, corner by corner. *)
Lemma loadTet_per_corner text (s : TetFile F) fi face j corner :
  loadTet text = Normal s ->
  faces s !! fi = Some face -> face !! j = Some corner ->
  (forall k, (k < 3)%nat ->
     verticesPositions s !! ((3 * fi + j) * 3 + k)%nat =
       Some (fround (num (ta_get (vertices s)
                            (flat_index (corner !! 0%nat) 3 (Z.of_nat k))))) /\
     verticesNormals s !! ((3 * fi + j) * 3 + k)%nat =
       Some (fround (num (ta_get (normals s)
                            (flat_index (corner !! 0%nat) 3 (Z.of_nat k)))))) /\
  (forall k, (k < 2)%nat ->
     verticesTexCoords s !! ((3 * fi + j) * 2 + k)%nat =
       Some (fround (num (ta_get (texCoords s)
                            (flat_index (corner !! 1%nat) 2 (Z.of_nat k)))))).
Proof.
  intros Hload Hf Hc.
  destruct (loadTet_shape _ _ Hload)
    as (tet0 & _ & [Htri _] & Hfaces & _ & _ & _ & _ & _ & _ & _ & _).
  rewrite <- Hfaces in Htri.
  destruct (loadTet_parts _ _ Hload) as (tet & mesh & s1 & Hparse & Hmesh & Hs1 & ->).
  pose proof (recalcNormals_shape _ _ Hs1) as Hshape. unfold same_shape in Hshape.
  destruct Hshape as (Hv & _ & Htc & Hfs & _ & _ & _ & _ & _ & Hlp & _ & Hln).
  destruct (buildMesh_spec tet (parseTetFile_ok _ _ Hparse))
    as (mesh' & Hmesh' & _ & _ & _ & _ & _ & _ & _ & _ & Hp & _ & Hn).
  rewrite Hmesh in Hmesh'. injection Hmesh' as <-.
  destruct (buildMesh_fields _ _ Hmesh) as (_ & _ & _ & Hvt).
  destruct (recalcNormals_keeps _ _ Hs1) as (Hkt & _).
  destruct (recalcNormals_inv _ _ Hs1) as (_ & _ & Hvn).
  unfold setGeometry, copyDataToBuffer in *. simpl_fields. simpl_fields_in Hf.
  rewrite Hfs in Hf.
  pose proof (lookup_lt_Some _ _ _ Hf) as Hfi.
  pose proof (lookup_lt_Some _ _ _ Hc) as Hj.
  assert (length face = 3%nat) as Hface.
  { rewrite Hfs in Htri. eapply Forall_forall in Htri as [? _]; [done|].
    by eapply list_elem_of_lookup_2. }
  rewrite Hfs in Htri.
  split.
  - intros k Hk. split.
    + rewrite Hfs.
      apply (forEachCorner_lookup 3 _
               (fun corner k =>
                  fround (num (ta_get (vertices s1)
                                 (flat_index (corner !! 0%nat) 3 (Z.of_nat k))))))
        with face; try done; [apply copyVertexEntry_frame | apply copyVertexEntry_value
                             | apply copyVertexEntry_length | lia].
    + rewrite Hvn.
      apply (forEachCorner_lookup 3 _
               (fun corner k =>
                  fround (num (ta_get (normals s1)
                                 (flat_index (corner !! 0%nat) 3 (Z.of_nat k))))))
        with face; try done; [apply copyVertexEntry_frame | apply copyVertexEntry_value
                             | apply copyVertexEntry_length | lia].
  - intros k Hk. rewrite Hkt, Hvt, Htc.
    apply (forEachCorner_lookup 2 _
             (fun corner k =>
                fround (num (ta_get (texCoords mesh)
                               (flat_index (corner !! 1%nat) 2 (Z.of_nat k))))))
      with face; try done; [apply copyTexCoordEntry_frame | apply copyTexCoordEntry_value
                           | apply copyTexCoordEntry_length
                           | rewrite length_new_Float32Array; lia].
Qed.

(** X8.  In a loaded mesh the three per-corner buffers are aligned: entry
    3 fi + j holds, for corner [j] of face [fi], the position and the normal
    of the vertex the corner names and the texture coordinate it names. *)
Theorem loaded_per_corner_buffers text (s : TetFile F) fi face j corner :
  loadTet text = Normal s ->
  faces s !! fi = Some face -> face !! j = Some corner ->
  (forall k, (k < 3)%nat ->
     verticesPositions s !! ((3 * fi + j) * 3 + k)%nat =
       Some (fround (num (ta_get (vertices s)
                            (flat_index (corner !! 0%nat) 3 (Z.of_nat k))))) /\
     verticesNormals s !! ((3 * fi + j) * 3 + k)%nat =
       Some (fround (num (ta_get (normals s)
                            (flat_index (corner !! 0%nat) 3 (Z.of_nat k)))))) /\
  (forall k, (k < 2)%nat ->
     verticesTexCoords s !! ((3 * fi + j) * 2 + k)%nat =
       Some (fround (num (ta_get (texCoords s)
                            (flat_index (corner !! 1%nat) 2 (Z.of_nat k)))))).
Proof. apply loadTet_per_corner. Qed.

(** X9.  Indices that name nothing are not an error.  A corner token with no
    slash is parsed to a corner with the vertex index alone; in the loaded
    mesh the texture coordinate of such a corner is [NaN], [NaN], and the
    position of a corner whose vertex index designates no float of
    [vertices] is [NaN] in that float. *)
Theorem missing_indices_give_NaN text (s : TetFile F) fi face j corner :
  loadTet text = Normal s ->
  faces s !! fi = Some face -> face !! j = Some corner ->
  (forall token, contains "/" token = false ->
     parseCorner token = [jsub (parseInt token) 1]) /\
  (corner !! 1%nat = None ->
   forall k, (k < 2)%nat ->
     verticesTexCoords s !! ((3 * fi + j) * 2 + k)%nat = Some (fround f_nan)) /\
  (forall k, (k < 3)%nat ->
     ta_get (vertices s) (flat_index (corner !! 0%nat) 3 (Z.of_nat k)) = None ->
     verticesPositions s !! ((3 * fi + j) * 3 + k)%nat = Some (fround f_nan)).
Proof.
  intros Hload Hf Hc.
  destruct (loadTet_per_corner _ _ _ _ _ _ Hload Hf Hc) as [Hpn Ht].
  split; [exact parseCorner_no_slash|]. split.
  - intros Hnone k Hk. rewrite (Ht k Hk), Hnone. done.
  - intros k Hk Hget. destruct (Hpn k Hk) as [-> _]. by rewrite Hget.
Qed.

(** ** Vertices no face names *)

(** X10.  In a loaded mesh a vertex that no face names keeps the normal
    (0, 0, 0) the buffer was created with: [recalcNormals] writes the normals
    of the vertices with an entry in the Map and no others. *)
Theorem unreferenced_vertex_normal text (s : TetFile F) z k :
  loadTet text = Normal s ->
  0 <= z -> 0 <= k < 3 ->
  (forall faceIndex, ~ incident (faces s) (Some (Int z)) faceIndex) ->
  (Z.to_nat (3 * z + k) < length (normals s))%nat ->
  normals s !! Z.to_nat (3 * z + k) = Some f_zero.
Proof.
  intros Hload Hz Hk Hnone Hlen.
  destruct (loadTet_shape _ _ Hload) as (_ & _ & _ & _ & _ & Hadj & Hnl & _).
  destruct (loadTet_parts _ _ Hload) as (tet & mesh & s1 & Hparse & Hmesh & Hs1 & ->).
  pose proof (recalcNormals_shape _ _ Hs1) as Hshape. unfold same_shape in Hshape.
  destruct Hshape as (Hv & _ & _ & _ & Hcf & _).
  destruct (recalcNormals_inv _ _ Hs1) as (_ & Hn & _).
  destruct (buildMesh_fields _ _ Hmesh) as (_ & _ & Hnew & _).
  unfold setGeometry, copyDataToBuffer in *. simpl_fields. simpl_fields_in Hadj.
  simpl_fields_in Hnone. simpl_fields_in Hlen.
  assert (Some (Int z) ∉ (connectedFaces mesh).*1) as Hnotin.
  { apply Map_get_None. rewrite <- Hcf. specialize (Hadj (Some (Int z))).
    destruct (Map_get (connectedFaces s1) (Some (Int z))) as [l|]; [|done].
    destruct Hadj as (Hne & _ & Hin). destruct l as [|f l]; [done|].
    destruct (Hnone f). apply Hin. by left. }
  rewrite Hn in *. rewrite recalcVertexNormals_other by done.
  rewrite (is_stores_length _ _ (is_stores_recalcVertexNormals _ _ _)) in Hlen.
  rewrite Hnew in *. unfold new_Float32Array in *.
  apply lookup_replicate_2. by rewrite length_replicate in Hlen.
Qed.

(** ** Tetrahedron indices *)

(** X11.  The tetrahedron indices of a loaded mesh are the parsed ones
    converted as a [Uint32Array] converts them: a numeral [n] of the text is
    stored as [n - 1] modulo 2^32 (so "0" as 4294967295), every stored index
    is below 2^32, and a token that is no number is stored as 0. *)
Theorem tetsIndices_modulo text (s : TetFile F) :
  loadTet text = Normal s ->
  (exists tet, parseTetFile text = Normal tet /\
               tetsIndices s = map ToUint32 (Parsed.tetsIndices tet)) /\
  Forall (fun i => 0 <= i < 2 ^ 32) (tetsIndices s) /\
  (forall n, (n < 2 ^ 53)%N ->
     ToUint32 (jsub (parseInt (decimal n)) 1) = (Z.of_N n - 1) mod 2 ^ 32) /\
  (forall token, parseInt token = NaN -> ToUint32 (jsub (parseInt token) 1) = 0).
Proof.
  intros Hload.
  destruct (loadTet_parts _ _ Hload) as (tet & mesh & s1 & Hparse & Hmesh & Hs1 & ->).
  pose proof (recalcNormals_shape _ _ Hs1) as Hshape. unfold same_shape in Hshape.
  destruct Hshape as (_ & Hti & _).
  destruct (buildMesh_fields _ _ Hmesh) as (_ & Htets & _).
  unfold setGeometry, copyDataToBuffer. simpl_fields. rewrite Hti, Htets.
  split; [by exists tet|]. split; [|split].
  - apply Forall_forall. intros i (x & -> & _)%list_elem_of_fmap.
    destruct x; simpl; try lia. apply Z.mod_pos_bound. lia.
  - intros n Hn. by rewrite index_decimal.
  - intros token ->. done.
Qed.
End LoadedMesh.

(** ** How the two recomputations compose *)

Section Composition.
Context {F : Type} `{Float64 F}.

Lemma mark_commute g : markNormal (markPosition g) = markPosition (markNormal g).
Proof. by destruct g. Qed.

Lemma markPosition_idempotent g : markPosition (markPosition g) = markPosition g.
Proof. by destruct g. Qed.

Lemma recalcNormals_copyDataToBuffer (s : TetFile F) :
  recalcNormals (copyDataToBuffer s) =
  match recalcNormals s with
  | Normal s' => Normal (copyDataToBuffer s')
  | Throw => Throw
  end.
Proof.
  unfold recalcNormals, copyDataToBuffer. simpl_fields.
  destruct (recalcFaceNormals (vertices s) (faces s) 0 (faceNormals s) (faceAreas s));
    [|done].
  simpl_fields. by rewrite mark_commute.
Qed.

Lemma copyDataToBuffer_idempotent (s : TetFile F) :
  copyDataToBuffer (copyDataToBuffer s) = copyDataToBuffer s.
Proof.
  unfold copyDataToBuffer. simpl_fields.
  rewrite markPosition_idempotent.
  by rewrite (is_stores_idempotent _ _
                (is_stores_forEachCorner _ _ _ (is_stores_copyVertexEntry _))).
Qed.

(** A call on the mesh a call returned returns that mesh. *)
Lemma recalcNormals_again (s s' : TetFile F) :
  recalcNormals s = Normal s' -> recalcNormals s' = Normal s'.
Proof.
  unfold recalcNormals.
  destruct (recalcFaceNormals_stores (vertices s) (faces s) 0) as [Ht | (wsn & wsa & Hok)].
  { by rewrite Ht. }
  rewrite Hok. simpl_fields. intros [= <-]. simpl_fields.
  rewrite Hok. simpl_fields.
  rewrite !stores_idempotent, markNormal_idempotent.
  rewrite (is_stores_idempotent _ _ (is_stores_recalcVertexNormals _ _ _)).
  rewrite (is_stores_idempotent _ _
             (is_stores_forEachCorner _ _ _ (is_stores_copyVertexEntry _))).
  done.
Qed.

(** X12.  The two recomputations are independent: synchronizing the
    positions before or after recomputing the normals gives the same mesh,
    and [recalcNormals] throws in the one order exactly when it does in the
    other; synchronizing the positions twice is synchronizing them once. *)
Theorem recompute_order_irrelevant (s : TetFile F) :
  recalcNormals (copyDataToBuffer s) =
    match recalcNormals s with
    | Normal s' => Normal (copyDataToBuffer s')
    | Throw => Throw
    end /\
  copyDataToBuffer (copyDataToBuffer s) = copyDataToBuffer s.
Proof. split; [apply recalcNormals_copyDataToBuffer | apply copyDataToBuffer_idempotent]. Qed.

Lemma loadTet_three_corners text (s : TetFile F) :
  loadTet text = Normal s -> three_corners (faces s).
Proof.
  intros (tet & _ & [Htri _] & -> & _)%loadTet_shape.
  by apply triangle_three_corners.
Qed.

(** ** Render.updateTetModel *)

(** X13.  [updateTetModel] throws while no mesh is loaded.  On a loaded
    mesh, whatever its vertex positions have become, it returns; the mesh
    keeps its shape and its positions, both the position and the normal
    attribute of the geometry are marked, and a second update with unchanged
    positions changes nothing. *)
Theorem updateTetModel_behaviour (this : Render F) :
  (donut this = None -> updateTetModel this = Throw) /\
  (forall text s, loadTet text = Normal s -> three_corners (faces s)) /\
  (forall s, donut this = Some s -> three_corners (faces s) ->
     exists s', updateTetModel this = Normal {| donut := Some s' |} /\
       same_shape s s' /\
       (forall g, geometry s = Some g ->
          geometry s' = Some {| position_needsUpdate := true;
                                uv_needsUpdate := uv_needsUpdate g;
                                normal_needsUpdate := true |}) /\
       updateTetModel {| donut := Some s' |} = Normal {| donut := Some s' |}).
Proof.
  split; [|split].
  - unfold updateTetModel, getTetModel. by intros ->.
  - apply loadTet_three_corners.
  - intros s Hd Hwf. unfold updateTetModel, getTetModel. rewrite Hd.
    destruct (recalcNormals_total s Hwf) as [s1 Hs1]. rewrite Hs1. cbn [cbind].
    exists (copyDataToBuffer s1). split; [done|]. split; [|split].
    + eapply same_shape_trans; [by apply recalcNormals_shape|].
      apply copyDataToBuffer_shape.
    + intros g Hg. revert Hs1. unfold recalcNormals.
      destruct (recalcFaceNormals (vertices s) (faces s) 0 (faceNormals s) (faceAreas s));
        [|done].
      cbn [cbind]. intros [= <-]. unfold copyDataToBuffer. simpl_fields.
      by rewrite Hg.
    + cbn [donut]. rewrite recalcNormals_copyDataToBuffer.
      rewrite (recalcNormals_again _ _ Hs1). cbn [cbind].
      by rewrite copyDataToBuffer_idempotent.
Qed.
End Composition.

(** ** The order of the connected faces *)

Lemma Map_set_Forall (Q : list nat -> Prop) (m : JSMap) k v :
  Forall (fun entry : JSValue * list nat => Q entry.2) m -> Q v ->
  Forall (fun entry : JSValue * list nat => Q entry.2) (Map_set m k v).
Proof.
  intros Hm Hv. induction m as [|[k0 v0] m IH]; simpl.
  - by constructor.
  - apply Forall_cons in Hm as [H0 Hm].
    destruct (decide (k0 = k)); constructor; auto.
Qed.

Lemma Map_get_Forall (Q : list nat -> Prop) (m : JSMap) k l :
  Forall (fun entry : JSValue * list nat => Q entry.2) m ->
  Map_get m k = Some l -> Q l.
Proof.
  intros Hm. induction m as [|[k0 v0] m IH]; simpl; [done|].
  apply Forall_cons in Hm as [H0 Hm].
  destruct (decide (k0 = k)); [by intros [= <-] | by apply IH].
Qed.

Lemma ascending_below_mono b b' m :
  (b <= b')%nat -> ascending_below b m -> ascending_below b' m.
Proof.
  intros Hb Hm. unfold ascending_below in *.
  eapply Forall_impl; [exact Hm|]. intros entry [Hs Hlt]. split; [done|].
  eapply Forall_impl; [exact Hlt|]. intros f Hf. simpl in *. lia.
Qed.

Lemma connect_ascending m v f :
  ascending_below (S f) m -> ascending_below (S f) (connect m v f).
Proof.
  intros Hm. unfold connect.
  apply (Map_set_Forall (fun l => StronglySorted lt l /\ Forall (fun f' => (f' < S f)%nat) l));
    [exact Hm|].
  destruct (Map_get m v) as [l|] eqn:Hget.
  - change (default [] (Some l)) with l.
    pose proof (Map_get_Forall
                  (fun l => StronglySorted lt l /\ Forall (fun f' => (f' < S f)%nat) l)
                  _ _ _ Hm Hget) as Hl.
    cbn beta in Hl. destruct Hl as [Hs Hlt].
    destruct (includes l f) eqn:E; [done|].
    assert (f ∉ l) as Hnotin by (intros Hf%includes_elem_of; congruence).
    split.
    + apply StronglySorted_app_2; [|done|repeat constructor].
      intros x1 x2 Hx1 ->%list_elem_of_singleton.
      rewrite Forall_forall in Hlt. specialize (Hlt x1 Hx1).
      assert (x1 <> f) by (intros ->; done). lia.
    + apply Forall_app. split; [done|]. repeat constructor.
  - simpl. split; repeat constructor.
Qed.

Lemma connectFace_ascending (face : Face) f n :
  forall k m m',
    ascending_below (S f) m -> connectFace face f k n m = Normal m' ->
    ascending_below (S f) m'.
Proof.
  induction n as [|n IH]; intros k m m' Hm; cbn [connectFace].
  - by intros [= <-].
  - destruct (cornerVertex face k) as [v|]; [|done]. cbn [cbind].
    apply IH. by apply connect_ascending.
Qed.

Lemma fillConnectedFaces_ascending faces :
  forall f m m',
    ascending_below f m -> fillConnectedFaces faces f m = Normal m' ->
    ascending_below (f + length faces) m'.
Proof.
  induction faces as [|face faces IH]; intros f m m' Hm; cbn [fillConnectedFaces].
  - intros [= <-]. by rewrite Nat.add_0_r.
  - destruct (connectFace face f 0 3 m) as [m1|] eqn:E; [|done]. cbn [cbind].
    intros Hrest. replace (f + length (face :: faces))%nat
      with (S f + length faces)%nat by (simpl; lia).
    eapply IH; [|exact Hrest].
    eapply connectFace_ascending; [|exact E].
    by apply ascending_below_mono with f; [lia|].
Qed.

(** X14.  In a loaded mesh every list of connected faces is in ascending
    order of face index, and its indices are indices of faces. *)
Theorem connections_ascending {F : Type} `{Float64 F} text (s : TetFile F) v l :
  loadTet text = Normal s ->
  Map_get (connectedFaces s) v = Some l ->
  StronglySorted lt l /\ Forall (fun f => (f < length (faces s))%nat) l.
Proof.
  intros Hload Hget.
  destruct (loadTet_parts _ _ Hload) as (tet & mesh & s1 & Hparse & Hmesh & Hs1 & ->).
  pose proof (recalcNormals_shape _ _ Hs1) as Hshape. unfold same_shape in Hshape.
  destruct Hshape as (_ & _ & _ & Hfs & Hcf & _).
  unfold setGeometry, copyDataToBuffer in *. simpl_fields. simpl_fields_in Hget.
  rewrite Hcf in Hget. rewrite Hfs.
  revert Hmesh. unfold buildMesh.
  destruct (fillConnectedFaces (Parsed.faces tet) 0 []) as [m|] eqn:E; [|done].
  cbn [cbind]. intros [= <-]. simpl_fields. simpl_fields_in Hget.
  apply fillConnectedFaces_ascending in E; [|constructor].
  exact (Map_get_Forall
           (fun l => StronglySorted lt l /\
                     Forall (fun f => (f < 0 + length (Parsed.faces tet))%nat) l)
           _ _ _ E Hget).
Qed.

(** ** The further properties at concrete inputs *)

Lemma loaded_faces {F : Type} `{Float64 F} text (tet : ParsedTetFile F) :
  parseTetFile text = Normal tet ->
  exists s, loadTet text = Normal s /\ faces s = Parsed.faces tet /\
            length (vertices s) = length (Parsed.vertices tet).
Proof.
  intros Hparse.
  destruct (loadTet_spec text tet Hparse) as (mesh & s1 & _ & _ & Hload).
  eexists. split; [exact Hload|].
  destruct (loadTet_shape _ _ Hload) as (tet' & Hparse' & _ & Hf & Hv & _).
  rewrite Hparse in Hparse'. injection Hparse' as <-.
  split; [done|]. by rewrite Hv, length_map.
Qed.

Lemma flat_triangle_loaded :
  exists s, loadTet (F:=ideal) flat_triangle = Normal s /\
            faces s = [[[Int 0; Int 0]; [Int 1; Int 1]; [Int 2; Int 2]]].
Proof.
  assert (exists tet, parseTetFile (F:=ideal) flat_triangle = Normal tet /\
                      Parsed.faces tet = [[[Int 0; Int 0]; [Int 1; Int 1]; [Int 2; Int 2]]])
    as (tet & Hparse & Hf).
  { eexists. split; [cbv -[IZR powerRZ Rmult]; reflexivity | reflexivity]. }
  destruct (loaded_faces _ _ Hparse) as (s & Hload & Hfs & _).
  exists s. split; [done|]. by rewrite Hfs.
Qed.

Lemma fan_loaded :
  exists s, loadTet (F:=ideal) fan = Normal s /\
            connectedFaces s = connectedFaces fan_mesh.
Proof.
  destruct fan_loads as (s1 & Hs1 & Hload).
  eexists. split; [exact Hload|].
  pose proof (recalcNormals_shape _ _ Hs1) as Hshape. unfold same_shape in Hshape.
  destruct Hshape as (_ & _ & _ & _ & Hcf & _).
  unfold setGeometry, copyDataToBuffer. simpl_fields. exact Hcf.
Qed.

Lemma bare_triangle_loaded :
  exists s, loadTet (F:=ideal) bare_triangle = Normal s /\
            faces s = [[[Int 0]; [Int 1]; [Int 6]]] /\ length (vertices s) = 12%nat.
Proof.
  assert (exists tet, parseTetFile (F:=ideal) bare_triangle = Normal tet /\
                      Parsed.faces tet = [[[Int 0]; [Int 1]; [Int 6]]] /\
                      length (Parsed.vertices tet) = 12%nat)
    as (tet & Hparse & Hf & Hv).
  { eexists. split; [cbv -[IZR powerRZ Rmult]; reflexivity | split; reflexivity]. }
  destruct (loaded_faces _ _ Hparse) as (s & Hload & Hfs & Hvs).
  exists s. split; [done|]. split; [by rewrite Hfs | by rewrite Hvs].
Qed.

Lemma fan_mesh_triangles : Forall triangle (faces fan_mesh).
Proof. repeat constructor; discriminate. Qed.

Lemma extra_tokens_ignored_witness :
  (["v"; "1"; "2"; "3"] !! 0%nat = Some "v" /\
   (arity "v" <= length ["v"; "1"; "2"; "3"])%nat) /\
  parseDirective (F:=ideal) empty_parsed (["v"; "1"; "2"; "3"] ++ ["4"; "5"]) =
  parseDirective empty_parsed ["v"; "1"; "2"; "3"].
Proof.
  assert (arity "v" <= length ["v"; "1"; "2"; "3"])%nat as Hlen by (vm_compute; lia).
  split; [exact (conj eq_refl Hlen)|].
  exact (extra_tokens_ignored (F:=ideal) empty_parsed "v" ["v"; "1"; "2"; "3"]
           ["4"; "5"] eq_refl Hlen).
Defined.

Lemma parsed_sizes_witness :
  exists tet, parseTetFile (F:=ideal) flat_triangle = Normal tet /\
    length (Parsed.vertices tet) = 9%nat /\ length (Parsed.texCoords tet) = 6%nat /\
    length (Parsed.faces tet) = 1%nat /\ length (Parsed.tetsIndices tet) = 4%nat.
Proof.
  destruct flat_triangle_parsed as (tet & Hparse & _).
  exists tet. split; [exact Hparse|].
  exact (parsed_sizes (F:=ideal) flat_triangle tet Hparse).
Defined.

Lemma crlf_parses_the_same_witness :
  contains "013" flat_triangle = false /\
  parseTetFile (F:=ideal) (crlf flat_triangle) = parseTetFile (F:=ideal) flat_triangle.
Proof.
  split; [reflexivity|].
  exact (crlf_parses_the_same (F:=ideal) flat_triangle eq_refl).
Defined.

Lemma copyDataToBuffer_positions_witness :
  Forall triangle (faces fan_mesh) /\
  verticesPositions (copyDataToBuffer fan_mesh) !! 3%nat = Some (IReal 3).
Proof.
  split; [exact fan_mesh_triangles|].
  assert ((3 * 0 + 1) * 3 + 0 < length (verticesPositions fan_mesh))%nat as Hlen
    by (simpl; lia).
  exact (proj1 (copyDataToBuffer_positions fan_mesh 0 _ 1 [Int 1; Int 0] 0
                  fan_mesh_triangles eq_refl eq_refl ltac:(lia) Hlen)).
Defined.

Lemma recalcNormals_corner_normals_witness :
  exists s', recalcNormals fan_mesh = Normal s' /\
    verticesNormals s' !! 1%nat = verticesNormals s' !! 10%nat.
Proof.
  destruct fan_loads as (s' & Hs' & _). exists s'. split; [exact Hs'|].
  assert ((3 * 0 + 0) * 3 + 1 < length (verticesNormals fan_mesh))%nat as Hlen
    by (simpl; lia).
  assert ((3 * 1 + 0) * 3 + 1 < length (verticesNormals fan_mesh))%nat as Hlen'
    by (simpl; lia).
  exact (proj2 (recalcNormals_corner_normals fan_mesh s' Hs' fan_mesh_triangles)
           0%nat _ 0%nat [Int 0; Int 0] 1%nat _ 0%nat [Int 0; Int 0] 1%nat
           eq_refl eq_refl eq_refl eq_refl eq_refl ltac:(lia) Hlen Hlen').
Defined.

Lemma loaded_per_corner_buffers_witness :
  exists s, loadTet (F:=ideal) flat_triangle = Normal s /\
    verticesTexCoords s !! 2%nat =
      Some (num (ta_get (texCoords s) (flat_index (Some (Int 1)) 2 0))) /\
    verticesPositions s !! 3%nat =
      Some (num (ta_get (vertices s) (flat_index (Some (Int 1)) 3 0))).
Proof.
  destruct flat_triangle_loaded as (s & Hload & Hfaces).
  exists s. split; [exact Hload|].
  assert (faces s !! 0%nat = Some [[Int 0; Int 0]; [Int 1; Int 1]; [Int 2; Int 2]])
    as Hf by (rewrite Hfaces; reflexivity).
  destruct (loaded_per_corner_buffers flat_triangle s 0 _ 1 [Int 1; Int 1]
              Hload Hf eq_refl) as [Hpn Ht].
  split; [exact (Ht 0%nat ltac:(lia)) | exact (proj1 (Hpn 0%nat ltac:(lia)))].
Defined.

Lemma missing_indices_give_NaN_witness :
  exists s, loadTet (F:=ideal) bare_triangle = Normal s /\
    verticesTexCoords s !! 0%nat = Some INaN /\
    verticesPositions s !! 6%nat = Some INaN.
Proof.
  destruct bare_triangle_loaded as (s & Hload & Hfaces & Hv).
  exists s. split; [exact Hload|].
  assert (faces s !! 0%nat = Some [[Int 0]; [Int 1]; [Int 6]])
    as Hf by (rewrite Hfaces; reflexivity).
  destruct (missing_indices_give_NaN bare_triangle s 0 _ 0 [Int 0] Hload Hf eq_refl)
    as (_ & Ht & _).
  destruct (missing_indices_give_NaN bare_triangle s 0 _ 2 [Int 6] Hload Hf eq_refl)
    as (_ & _ & Hp).
  split; [exact (Ht eq_refl 0%nat ltac:(lia))|].
  apply (Hp 0%nat ltac:(lia)).
  unfold ta_get. change (ta_index (flat_index ([Int 6] !! 0%nat) 3 (Z.of_nat 0)))
    with (Some 18%nat).
  apply lookup_ge_None. rewrite Hv. lia.
Defined.

Lemma unreferenced_vertex_normal_witness :
  exists s, loadTet (F:=ideal) bare_triangle = Normal s /\
    normals s !! 9%nat = Some (IReal 0).
Proof.
  destruct bare_triangle_loaded as (s & Hload & Hfaces & Hv).
  exists s. split; [exact Hload|].
  destruct (loadTet_shape _ _ Hload) as (_ & _ & _ & _ & _ & _ & Hn & _).
  apply (unreferenced_vertex_normal bare_triangle s 3 0 Hload); [lia | lia | |].
  - intros faceIndex (face & corner & Hf & Hin & Hc). rewrite Hfaces in Hf.
    destruct faceIndex as [|faceIndex]; [|by destruct faceIndex].
    injection Hf as <-.
    apply elem_of_cons in Hin as [->|Hin]; [discriminate|].
    apply elem_of_cons in Hin as [->|Hin]; [discriminate|].
    apply elem_of_cons in Hin as [->|Hin]; [discriminate|].
    by apply elem_of_nil in Hin.
  - rewrite Hn, Hv. simpl. lia.
Defined.

Lemma tetsIndices_modulo_witness :
  exists s, loadTet (F:=ideal) flat_triangle = Normal s /\
    Forall (fun i => 0 <= i < 2 ^ 32) (tetsIndices s) /\
    ToUint32 (jsub (parseInt (decimal 0)) 1) = 4294967295.
Proof.
  destruct flat_triangle_loaded as (s & Hload & _).
  exists s. split; [exact Hload|].
  destruct (tetsIndices_modulo flat_triangle s Hload) as (_ & Hb & Hn & _).
  split; [exact Hb|]. exact (Hn 0%N eq_refl).
Defined.

Lemma connections_ascending_witness :
  exists s, loadTet (F:=ideal) fan = Normal s /\
    Map_get (connectedFaces s) (Some (Int 0)) = Some [0%nat; 1%nat] /\
    StronglySorted lt [0%nat; 1%nat].
Proof.
  destruct fan_loaded as (s & Hload & Hcf).
  exists s. split; [exact Hload|].
  assert (Map_get (connectedFaces s) (Some (Int 0)) = Some [0%nat; 1%nat]) as Hget
    by (rewrite Hcf; reflexivity).
  split; [exact Hget|].
  exact (proj1 (connections_ascending fan s _ _ Hload Hget)).
Defined.

Lemma updateTetModel_behaviour_witness :
  three_corners (faces fan_mesh) /\
  exists s', updateTetModel {| donut := Some fan_mesh |} = Normal {| donut := Some s' |} /\
    same_shape fan_mesh s' /\
    updateTetModel {| donut := Some s' |} = Normal {| donut := Some s' |}.
Proof.
  assert (three_corners (faces fan_mesh)) as Hthree by (repeat constructor).
  split; [exact Hthree|].
  destruct (proj2 (proj2 (updateTetModel_behaviour {| donut := Some fan_mesh |}))
              fan_mesh eq_refl Hthree) as (s' & Hupdate & Hshape & _ & Hagain).
  exists s'. exact (conj Hupdate (conj Hshape Hagain)).
Defined.

Lemma flat_triangle_triangles : Forall triangle (faces flat_triangle_mesh).
Proof. repeat constructor; discriminate. Qed.

Lemma absent_geometry_tolerated_witness :
  (geometry flat_triangle_mesh = None /\ three_corners (faces flat_triangle_mesh)) /\
  (exists s', recalcNormals flat_triangle_mesh = Normal s' /\ geometry s' = None /\
     verticesNormals s' !! 3%nat =
       Some (num (ta_get (normals s') (flat_index (Some (Int 1)) 3 0)))) /\
  geometry (copyDataToBuffer flat_triangle_mesh) = None /\
  verticesPositions (copyDataToBuffer flat_triangle_mesh) !! 3%nat = Some (IReal 1).
Proof.
  split; [exact (conj eq_refl flat_triangle_three_corners)|].
  destruct (absent_geometry_tolerated flat_triangle_mesh eq_refl
              flat_triangle_three_corners)
    as ((s' & Hs' & Hg & _ & _ & Hvn & _) & Hc & Hvp & _).
  assert ((3 * 0 + 1) * 3 + 0 < length (verticesNormals flat_triangle_mesh))%nat
    as Hlen by (simpl; lia).
  assert ((3 * 0 + 1) * 3 + 0 < length (verticesPositions flat_triangle_mesh))%nat
    as Hlen' by (simpl; lia).
  split; [|split; [exact Hc|]].
  - exists s'. split; [exact Hs'|]. split; [exact Hg|].
    exact (Hvn 0%nat _ 1%nat [Int 1; Int 1] 0%nat flat_triangle_triangles
             eq_refl eq_refl ltac:(lia) Hlen).
  - exact (Hvp 0%nat _ 1%nat [Int 1; Int 1] 0%nat flat_triangle_triangles
             eq_refl eq_refl ltac:(lia) Hlen').
Defined.
